(** * A shallow embedding of the [ir] and [ir/types] packages

    The development follows the Go sources file by file:
    - [types]: the LLVM IR type algebra of [ir/types] (String, Def, Equal)
      over finite type trees;
    - [graph]: the same three methods over a store of type nodes linked by
      references, where cycles can be built, with explicit recursion depth;
    - [ir]: basic blocks, the conversion and aggregate instructions, the
      constant expressions and the aggregate element-type helper.

    Go integers of type [int64] are integers of [Z]; the code under study
    only compares and prints them, it never does arithmetic on them. *)

From Stdlib Require Import ZArith List Bool Ascii String Lia Arith.
From Stdlib Require Import DecimalString DecimalZ.
Import ListNotations.

Local Open Scope string_scope.
Local Open Scope Z_scope.

#[local] Set Warnings "-register-all".

(** ** Results of Go calls *)

(** The value carried by a Go panic. *)
Inductive panic_value : Type :=
| PanicString (msg : string)                 (* panic("...") *)
| PanicError (msg : string)                  (* panic(fmt.Errorf(...)) *)
| PanicIndexOutOfRange (index : Z) (len : nat) (* run-time bounds check *)
| PanicNilDereference.                        (* method call through nil *)

(** A call either returns or panics. *)
Inductive outcome (A : Type) : Type :=
| Ret (a : A)
| Panic (p : panic_value).
Arguments Ret {A} a.
Arguments Panic {A} p.

Definition bind {A B : Type} (o : outcome A) (k : A -> outcome B) : outcome B :=
  match o with
  | Ret a => k a
  | Panic p => Panic p
  end.

Notation "x <- o ;; k" := (bind o (fun x => k))
  (at level 61, o at next level, right associativity).

Definition returns {A : Type} (o : outcome A) : Prop := exists a, o = Ret a.

Definition panics {A : Type} (o : outcome A) : Prop := exists p, o = Panic p.

Definition not_yet_implemented : panic_value := PanicString "not yet implemented".

(** ** Formatting helpers of package [fmt] *)

(** [%d] and [%v] of an [int64]. *)
Definition fmt_d (z : Z) : string := NilZero.string_of_int (Z.to_int z).

(** The text [fmt] prints for a recovered panic value. *)
Definition panic_text (p : panic_value) : string :=
  match p with
  | PanicString msg => msg
  | PanicError msg => msg
  | PanicIndexOutOfRange i len =>
      if i <? 0
      then "runtime error: index out of range [" ++ fmt_d i ++ "]"
      else "runtime error: index out of range [" ++ fmt_d i ++ "] with length "
             ++ fmt_d (Z.of_nat len)
  | PanicNilDereference =>
      "runtime error: invalid memory address or nil pointer dereference"
  end.

(** [%v] of a non-nil [fmt.Stringer]: [fmt] calls its [String] method and
    recovers a panic raised by it, printing the panic value in place (with
    the wording of Go 1.13 and later; the properties below do not depend on
    the wording). *)
Definition fmt_v (o : outcome string) : string :=
  match o with
  | Ret s => s
  | Panic p => "%!v(PANIC=String method: " ++ panic_text p ++ ")"
  end.

(** Writes separated by [", "], as in
    [for i, x := range xs { if i != 0 { buf.WriteString(", ") }; ... }]. *)
Definition comma_sep (xs : list string) : string := String.concat ", " xs.

(** ** Facts about strings used by the proofs *)

Fixpoint last_char (s : string) : option ascii :=
  match s with
  | EmptyString => None
  | String c EmptyString => Some c
  | String _ rest => last_char rest
  end.

Definition ends_with (c : ascii) (s : string) : bool :=
  match last_char s with
  | Some d => Ascii.eqb c d
  | None => false
  end.

Fixpoint string_forall (p : ascii -> bool) (s : string) : bool :=
  match s with
  | EmptyString => true
  | String c rest => p c && string_forall p rest
  end.

Definition not_star (c : ascii) : bool := negb (Ascii.eqb "*" c).

(** ** Package [types]: type trees *)

Module types.

(** [FloatKind] with the names its generated [String] method prints (the
    line comments of the constant declarations). *)
Inductive FloatKind : Type :=
| FloatKindHalf
| FloatKindFloat
| FloatKindDouble
| FloatKindX86FP80
| FloatKindFP128
| FloatKindPPCFP128.

Definition FloatKind_String (k : FloatKind) : string :=
  match k with
  | FloatKindHalf => "half"
  | FloatKindFloat => "float"
  | FloatKindDouble => "double"
  | FloatKindX86FP80 => "x86_fp80"
  | FloatKindFP128 => "fp128"
  | FloatKindPPCFP128 => "ppc_fp128"
  end.

Definition FloatKind_eqb (a b : FloatKind) : bool :=
  match a, b with
  | FloatKindHalf, FloatKindHalf
  | FloatKindFloat, FloatKindFloat
  | FloatKindDouble, FloatKindDouble
  | FloatKindX86FP80, FloatKindX86FP80
  | FloatKindFP128, FloatKindFP128
  | FloatKindPPCFP128, FloatKindPPCFP128 => true
  | _, _ => false
  end.

(** [AddrSpace.String]. *)
Definition AddrSpace_String (a : Z) : string := "addrspace(" ++ fmt_d a ++ ")".

(** The implementations of the [Type] interface, one constructor per Go
    struct, with the struct's fields in declaration order.  A value of this
    type is a finite tree: every element, field, parameter and return type
    is present (no nil) and nothing refers back to an enclosing node. *)
Inductive type : Type :=
| VoidType (Alias : string)
| FuncType (Alias : string) (RetType : type) (Params : list type) (Variadic : bool)
| IntType (Alias : string) (BitSize : Z)
| FloatType (Alias : string) (Kind : FloatKind)
| MMXType (Alias : string)
| PointerType (Alias : string) (ElemType : type) (AddrSpace : Z)
| VectorType (Alias : string) (Len : Z) (ElemType : type)
| LabelType (Alias : string)
| TokenType (Alias : string)
| MetadataType (Alias : string)
| ArrayType (Alias : string) (Len : Z) (ElemType : type)
| StructType (Alias : string) (Packed : bool) (Fields : list type) (Opaque : bool).

Definition Alias (t : type) : string :=
  match t with
  | VoidType a | FuncType a _ _ _ | IntType a _ | FloatType a _ | MMXType a
  | PointerType a _ _ | VectorType a _ _ | LabelType a | TokenType a
  | MetadataType a | ArrayType a _ _ | StructType a _ _ _ => a
  end.

(** [SetAlias]: the receiver with its alias replaced. *)
Definition SetAlias (t : type) (alias : string) : type :=
  match t with
  | VoidType _ => VoidType alias
  | FuncType _ r ps v => FuncType alias r ps v
  | IntType _ n => IntType alias n
  | FloatType _ k => FloatType alias k
  | MMXType _ => MMXType alias
  | PointerType _ e a => PointerType alias e a
  | VectorType _ n e => VectorType alias n e
  | LabelType _ => LabelType alias
  | TokenType _ => TokenType alias
  | MetadataType _ => MetadataType alias
  | ArrayType _ n e => ArrayType alias n e
  | StructType _ p fs o => StructType alias p fs o
  end.

(** [len(t.Alias) > 0]. *)
Definition has_alias (a : string) : bool := (0 <? String.length a)%nat.

(** Constructors of the package. *)
Definition NewFunc (retType : type) (params : list type) : type :=
  FuncType "" retType params false.
Definition NewInt (bitSize : Z) : type := IntType "" bitSize.
Definition NewPointer (elemType : type) : type := PointerType "" elemType 0.
Definition NewVector (len : Z) (elemType : type) : type := VectorType "" len elemType.
Definition NewArray (len : Z) (elemType : type) : type := ArrayType "" len elemType.
Definition NewStruct (fields : list type) : type := StructType "" false fields false.

(** Convenience types. *)
Definition Void : type := VoidType "".
Definition MMX : type := MMXType "".
Definition Label : type := LabelType "".
Definition Token : type := TokenType "".
Definition Metadata : type := MetadataType "".
Definition I1 : type := IntType "" 1.
Definition I8 : type := IntType "" 8.
Definition I16 : type := IntType "" 16.
Definition I32 : type := IntType "" 32.
Definition I64 : type := IntType "" 64.
Definition Half : type := FloatType "" FloatKindHalf.
Definition Float : type := FloatType "" FloatKindFloat.
Definition Double : type := FloatType "" FloatKindDouble.
Definition X86FP80 : type := FloatType "" FloatKindX86FP80.
Definition FP128 : type := FloatType "" FloatKindFP128.
Definition PPCFP128 : type := FloatType "" FloatKindPPCFP128.
Definition I8Ptr : type := PointerType "" I8 0.
Definition I32Ptr : type := PointerType "" I32 0.

Definition IsPointer (t : type) : bool :=
  match t with
  | PointerType _ _ _ => true
  | _ => false
  end.

(** The variants that hold no other type. *)
Definition IsLeaf (t : type) : bool :=
  match t with
  | VoidType _ | IntType _ _ | FloatType _ _ | MMXType _
  | LabelType _ | TokenType _ | MetadataType _ => true
  | _ => false
  end.

(** Every node of the tree is a literal (unaliased) type. *)
Fixpoint unaliased (t : type) : bool :=
  negb (has_alias (Alias t)) &&
  match t with
  | FuncType _ ret params _ => unaliased ret && forallb unaliased params
  | PointerType _ elem _ | VectorType _ _ elem | ArrayType _ _ elem => unaliased elem
  | StructType _ _ fields _ => forallb unaliased fields
  | _ => true
  end.

Section WithLocal.

(** [enc.Local], the identifier-escaping function of package [internal/enc],
    is not part of the files under study: the methods are parameterised by
    it. *)
Variable Local : string -> string.

(** Every [String] method has the same body: the escaped alias when one is
    set, the definition otherwise. *)
Definition String_of (def : type -> string) (t : type) : string :=
  if has_alias (Alias t) then Local (Alias t) else def t.

(** The [Def] methods. *)
Fixpoint Def (t : type) : string :=
  match t with
  | VoidType _ => "void"
  | FuncType _ ret params variadic =>
      String_of Def ret ++ " ("
        ++ comma_sep (map (String_of Def) params)
        ++ (if variadic
            then (if (0 <? List.length params)%nat then ", " else "") ++ "..."
            else "")
        ++ ")"
  | IntType _ bits => "i" ++ fmt_d bits
  | FloatType _ kind => FloatKind_String kind
  | MMXType _ => "x86_mmx"
  | PointerType _ elem addrspace =>
      String_of Def elem
        ++ (if addrspace =? 0 then "" else " " ++ AddrSpace_String addrspace)
        ++ "*"
  | VectorType _ len elem => "<" ++ fmt_d len ++ " x " ++ String_of Def elem ++ ">"
  | LabelType _ => "label"
  | TokenType _ => "token"
  | MetadataType _ => "metadata"
  | ArrayType _ len elem => "[" ++ fmt_d len ++ " x " ++ String_of Def elem ++ "]"
  | StructType _ packed fields opaque =>
      if opaque then "opaque"
      else (if packed then "<" else "")
             ++ "{ " ++ comma_sep (map (String_of Def) fields) ++ " }"
             ++ (if packed then ">" else "")
  end.

(** The [String] methods. *)
Definition String (t : type) : string := String_of Def t.

(** The loop [for i := range ts { if !ts[i].Equal(us[i]) { return false } }]
    run on two slices of the same length; [true] when it falls through. *)
Fixpoint all_equal (equal : type -> type -> bool) (ts us : list type) : bool :=
  match ts, us with
  | t :: ts', u :: us' => if equal t u then all_equal equal ts' us' else false
  | _, _ => true
  end.

(** The [Equal] methods; the receiver is the first argument. *)
Fixpoint Equal (t u : type) {struct t} : bool :=
  match t with
  | VoidType _ => match u with VoidType _ => true | _ => false end
  | FuncType _ tret tparams tvariadic =>
      match u with
      | FuncType _ uret uparams uvariadic =>
          if negb (Equal tret uret) then false
          else if negb (List.length tparams =? List.length uparams)%nat then false
          else if negb (all_equal Equal tparams uparams) then false
          else Bool.eqb tvariadic uvariadic
      | _ => false
      end
  | IntType _ tbits => match u with IntType _ ubits => tbits =? ubits | _ => false end
  | FloatType _ tkind =>
      match u with FloatType _ ukind => FloatKind_eqb tkind ukind | _ => false end
  | MMXType _ => match u with MMXType _ => true | _ => false end
  | PointerType _ _ _ => String.eqb (String t) (String u)
  | VectorType _ tlen telem =>
      match u with
      | VectorType _ ulen uelem =>
          if negb (tlen =? ulen) then false else Equal telem uelem
      | _ => false
      end
  | LabelType _ => match u with LabelType _ => true | _ => false end
  | TokenType _ => match u with TokenType _ => true | _ => false end
  | MetadataType _ => match u with MetadataType _ => true | _ => false end
  | ArrayType _ tlen telem =>
      match u with
      | ArrayType _ ulen uelem =>
          if negb (tlen =? ulen) then false else Equal telem uelem
      | _ => false
      end
  | StructType talias tpacked tfields _ =>
      match u with
      | StructType ualias upacked ufields _ =>
          if has_alias talias || has_alias ualias then String.eqb talias ualias
          else if negb (Bool.eqb tpacked upacked) then false
          else if negb (List.length tfields =? List.length ufields)%nat then false
          else all_equal Equal tfields ufields
      | _ => false
      end
  end.

(** [Equal] is symmetric, respectively transitive, from the literal tree
    [t]. *)
Definition symmetric_at (t : type) : Prop :=
  forall u, unaliased t = true -> unaliased u = true ->
            Equal t u = true -> Equal u t = true.

Definition transitive_at (t : type) : Prop :=
  forall u v, unaliased t = true -> unaliased u = true -> unaliased v = true ->
              Equal t u = true -> Equal u v = true -> Equal t v = true.

End WithLocal.

End types.

(** ** Package [types]: type nodes linked by references *)

(** In Go a [Type] is an interface holding a pointer, and a struct can be
    given a field after a pointer to it was made, so type nodes can form
    cycles.  Here a store holds the nodes and a reference is an index into
    it; a reference outside the store is a nil interface.  Recursive method
    calls are bounded by an explicit depth: the result [None] says that the
    call did not return within that depth.  A call that returns [None] at
    every depth never returns (in Go, it overflows the stack). *)

Module graph.

Import types(FloatKind, FloatKind_String, FloatKind_eqb, AddrSpace_String, has_alias).

Definition ref : Type := nat.

Inductive node : Type :=
| VoidType (Alias : string)
| FuncType (Alias : string) (RetType : ref) (Params : list ref) (Variadic : bool)
| IntType (Alias : string) (BitSize : Z)
| FloatType (Alias : string) (Kind : FloatKind)
| MMXType (Alias : string)
| PointerType (Alias : string) (ElemType : ref) (AddrSpace : Z)
| VectorType (Alias : string) (Len : Z) (ElemType : ref)
| LabelType (Alias : string)
| TokenType (Alias : string)
| MetadataType (Alias : string)
| ArrayType (Alias : string) (Len : Z) (ElemType : ref)
| StructType (Alias : string) (Packed : bool) (Fields : list ref) (Opaque : bool).

Definition store : Type := list node.

Definition deref (h : store) (r : ref) : option node := nth_error h r.

Definition Alias (n : node) : string :=
  match n with
  | VoidType a | FuncType a _ _ _ | IntType a _ | FloatType a _ | MMXType a
  | PointerType a _ _ | VectorType a _ _ | LabelType a | TokenType a
  | MetadataType a | ArrayType a _ _ | StructType a _ _ _ => a
  end.

(** The references held by a node. *)
Definition children (n : node) : list ref :=
  match n with
  | FuncType _ ret params _ => ret :: params
  | PointerType _ elem _ | VectorType _ _ elem | ArrayType _ _ elem => [elem]
  | StructType _ _ fields _ => fields
  | _ => []
  end.

(** A call returns, panics, or exceeds the depth ([None]). *)
Definition run (A : Type) : Type := option (outcome A).

Definition ret {A : Type} (a : A) : run A := Some (Ret a).

Definition rbind {A B : Type} (m : run A) (k : A -> run B) : run B :=
  match m with
  | Some (Ret a) => k a
  | Some (Panic p) => Some (Panic p)
  | None => None
  end.

Notation "x <~ m ;; k" := (rbind m (fun x => k))
  (at level 61, m at next level, right associativity).

(** [x.String()] for each [x] of a slice, in order. *)
Fixpoint each_String (str : ref -> run string) (rs : list ref) : run (list string) :=
  match rs with
  | [] => ret []
  | r :: rest =>
      s <~ str r ;;
      ss <~ each_String str rest ;;
      ret (s :: ss)
  end.

(** [%v] of a [Type]: ["<nil>"] for a nil interface; otherwise [fmt] calls
    [String] and recovers its panic.  Exceeding the depth is not
    recovered. *)
Definition fmt_v_ref (h : store) (str : ref -> run string) (r : ref) : run string :=
  match deref h r with
  | None => ret "<nil>"
  | Some _ =>
      match str r with
      | Some o => ret (fmt_v o)
      | None => None
      end
  end.

(** The loop of [FuncType.Equal] and [StructType.Equal]. *)
Fixpoint all_equal (equal : ref -> ref -> run bool) (ts us : list ref) : run bool :=
  match ts, us with
  | t :: ts', u :: us' =>
      b <~ equal t u ;;
      if b then all_equal equal ts' us' else ret false
  | _, _ => ret true
  end.

Section WithLocal.

Variable Local : string -> string.

(** The body of the [Def] methods, given the [String] method to call on the
    referenced types. *)
Definition Def_node (h : store) (str : ref -> run string) (n : node) : run string :=
  match n with
  | VoidType _ => ret "void"
  | FuncType _ rett params variadic =>
      r <~ fmt_v_ref h str rett ;;
      ps <~ each_String str params ;;
      ret (r ++ " (" ++ comma_sep ps
             ++ (if variadic
                 then (if (0 <? List.length params)%nat then ", " else "") ++ "..."
                 else "")
             ++ ")")
  | IntType _ bits => ret ("i" ++ fmt_d bits)
  | FloatType _ kind => ret (FloatKind_String kind)
  | MMXType _ => ret "x86_mmx"
  | PointerType _ elem addrspace =>
      e <~ str elem ;;
      ret (e ++ (if addrspace =? 0 then "" else " " ++ AddrSpace_String addrspace)
             ++ "*")
  | VectorType _ len elem =>
      e <~ fmt_v_ref h str elem ;;
      ret ("<" ++ fmt_d len ++ " x " ++ e ++ ">")
  | LabelType _ => ret "label"
  | TokenType _ => ret "token"
  | MetadataType _ => ret "metadata"
  | ArrayType _ len elem =>
      e <~ fmt_v_ref h str elem ;;
      ret ("[" ++ fmt_d len ++ " x " ++ e ++ "]")
  | StructType _ packed fields opaque =>
      if opaque then ret "opaque"
      else
        fs <~ each_String str fields ;;
        ret ((if packed then "<" else "") ++ "{ " ++ comma_sep fs ++ " }"
               ++ (if packed then ">" else ""))
  end.

(** The [String] methods; one unit of depth per call. *)
Fixpoint String (depth : nat) (h : store) (r : ref) : run string :=
  match depth with
  | O => None
  | S depth' =>
      match deref h r with
      | None => Some (Panic PanicNilDereference)
      | Some n =>
          if has_alias (Alias n) then ret (Local (Alias n))
          else Def_node h (String depth' h) n
      end
  end.

(** The [Def] methods. *)
Definition Def (depth : nat) (h : store) (r : ref) : run string :=
  match deref h r with
  | None => Some (Panic PanicNilDereference)
  | Some n => Def_node h (String depth h) n
  end.

(** The [Equal] methods; [t] is the receiver. *)
Fixpoint Equal (depth : nat) (h : store) (t u : ref) : run bool :=
  match depth with
  | O => None
  | S depth' =>
      match deref h t with
      | None => Some (Panic PanicNilDereference)
      | Some (VoidType _) =>
          ret (match deref h u with Some (VoidType _) => true | _ => false end)
      | Some (FuncType _ tret tparams tvariadic) =>
          match deref h u with
          | Some (FuncType _ uret uparams uvariadic) =>
              b <~ Equal depth' h tret uret ;;
              if negb b then ret false
              else if negb (List.length tparams =? List.length uparams)%nat then ret false
              else
                bs <~ all_equal (Equal depth' h) tparams uparams ;;
                if negb bs then ret false
                else ret (Bool.eqb tvariadic uvariadic)
          | _ => ret false
          end
      | Some (IntType _ tbits) =>
          ret (match deref h u with
               | Some (IntType _ ubits) => tbits =? ubits
               | _ => false
               end)
      | Some (FloatType _ tkind) =>
          ret (match deref h u with
               | Some (FloatType _ ukind) => FloatKind_eqb tkind ukind
               | _ => false
               end)
      | Some (MMXType _) =>
          ret (match deref h u with Some (MMXType _) => true | _ => false end)
      | Some (PointerType _ _ _) =>
          ts <~ String depth' h t ;;
          us <~ String depth' h u ;;
          ret (String.eqb ts us)
      | Some (VectorType _ tlen telem) =>
          match deref h u with
          | Some (VectorType _ ulen uelem) =>
              if negb (tlen =? ulen) then ret false
              else Equal depth' h telem uelem
          | _ => ret false
          end
      | Some (LabelType _) =>
          ret (match deref h u with Some (LabelType _) => true | _ => false end)
      | Some (TokenType _) =>
          ret (match deref h u with Some (TokenType _) => true | _ => false end)
      | Some (MetadataType _) =>
          ret (match deref h u with Some (MetadataType _) => true | _ => false end)
      | Some (ArrayType _ tlen telem) =>
          match deref h u with
          | Some (ArrayType _ ulen uelem) =>
              if negb (tlen =? ulen) then ret false
              else Equal depth' h telem uelem
          | _ => ret false
          end
      | Some (StructType talias tpacked tfields _) =>
          match deref h u with
          | Some (StructType ualias upacked ufields _) =>
              if has_alias talias || has_alias ualias
              then ret (String.eqb talias ualias)
              else if negb (Bool.eqb tpacked upacked) then ret false
              else if negb (List.length tfields =? List.length ufields)%nat
              then ret false
              else all_equal (Equal depth' h) tfields ufields
          | _ => ret false
          end
      end
  end.

End WithLocal.

(** The type tree below a reference, when no path from it is longer than
    [depth] and none reaches a nil reference. *)
Fixpoint unfold_all (unfold : ref -> option types.type) (rs : list ref)
    : option (list types.type) :=
  match rs with
  | [] => Some []
  | r :: rest =>
      match unfold r, unfold_all unfold rest with
      | Some t, Some ts => Some (t :: ts)
      | _, _ => None
      end
  end.

Fixpoint unfold (depth : nat) (h : store) (r : ref) : option types.type :=
  match depth with
  | O => None
  | S depth' =>
      match deref h r with
      | None => None
      | Some (VoidType a) => Some (types.VoidType a)
      | Some (FuncType a rett params variadic) =>
          match unfold depth' h rett, unfold_all (unfold depth' h) params with
          | Some rett', Some params' => Some (types.FuncType a rett' params' variadic)
          | _, _ => None
          end
      | Some (IntType a bits) => Some (types.IntType a bits)
      | Some (FloatType a kind) => Some (types.FloatType a kind)
      | Some (MMXType a) => Some (types.MMXType a)
      | Some (PointerType a elem addrspace) =>
          option_map (fun elem' => types.PointerType a elem' addrspace)
            (unfold depth' h elem)
      | Some (VectorType a len elem) =>
          option_map (types.VectorType a len) (unfold depth' h elem)
      | Some (LabelType a) => Some (types.LabelType a)
      | Some (TokenType a) => Some (types.TokenType a)
      | Some (MetadataType a) => Some (types.MetadataType a)
      | Some (ArrayType a len elem) =>
          option_map (types.ArrayType a len) (unfold depth' h elem)
      | Some (StructType a packed fields opaque) =>
          option_map (fun fields' => types.StructType a packed fields' opaque)
            (unfold_all (unfold depth' h) fields)
      end
  end.

(** [str'] returns whatever [str] returns; likewise for two-argument
    methods. *)
Definition extends (str str' : ref -> run string) : Prop :=
  forall r o, str r = Some o -> str' r = Some o.

Definition extends2 (eq eq' : ref -> ref -> run bool) : Prop :=
  forall t u o, eq t u = Some o -> eq' t u = Some o.

(** Every reference held in the store points into the store. *)
Definition closed (h : store) : bool :=
  forallb (fun n => forallb (fun c => (c <? List.length h)%nat) (children n)) h.

(** [String] does not look below a node that carries an alias. *)
Definition String_stops (n : node) : bool := has_alias (Alias n).

(** [Equal] calls itself on the nodes below its receiver, except at a
    pointer, where it calls [String] instead, and at an identified struct. *)
Definition Equal_stops (n : node) : bool :=
  match n with
  | PointerType _ _ _ => true
  | StructType a _ _ _ => has_alias a
  | _ => false
  end.

(** [rank] decreases from every node at which the method goes on to the
    nodes that node refers to: every cycle of the store contains a node at
    which the method stops. *)
Definition ranked_node (stops : node -> bool) (rank : ref -> nat) (r : ref) (n : node)
    : bool :=
  stops n || forallb (fun c => (rank c <? rank r)%nat) (children n).

Fixpoint ranked_from (stops : node -> bool) (rank : ref -> nat) (r : ref)
    (ns : list node) : bool :=
  match ns with
  | [] => true
  | n :: rest => ranked_node stops rank r n && ranked_from stops rank (S r) rest
  end.

Definition ranked (stops : node -> bool) (rank : ref -> nat) (h : store) : bool :=
  ranked_from stops rank 0%nat h.

(** [struct { self* }] built twice, with no alias: nodes 0 and 2 are the
    structs, nodes 1 and 3 the pointers back to them. *)
Definition literal_cycle : store :=
  [ StructType "" false [1%nat] false; PointerType "" 0%nat 0;
    StructType "" false [3%nat] false; PointerType "" 2%nat 0 ].

(** [%foo = type { %foo* }] built twice. *)
Definition named_cycle : store :=
  [ StructType "foo" false [1%nat] false; PointerType "" 0%nat 0;
    StructType "foo" false [3%nat] false; PointerType "" 2%nat 0 ].

Definition named_cycle_rank (r : ref) : nat :=
  match r with
  | 1%nat | 3%nat => 1%nat
  | _ => 0%nat
  end.

(** [{ %row }] with [%row = type [4 x self*]], built twice: the alias on the
    cycle is carried by the array (nodes 1 and 4). *)
Definition array_cycle : store :=
  [ StructType "" false [1%nat] false; ArrayType "row" 4 2%nat; PointerType "" 0%nat 0;
    StructType "" false [4%nat] false; ArrayType "row" 4 5%nat; PointerType "" 3%nat 0 ].

(** Ranks for [array_cycle]: [String] stops at the arrays, [Equal] at the
    pointers. *)
Definition array_cycle_String_rank (r : ref) : nat :=
  match r with
  | 0%nat | 3%nat => 1%nat
  | 2%nat | 5%nat => 2%nat
  | _ => 0%nat
  end.

Definition array_cycle_Equal_rank (r : ref) : nat :=
  match r with
  | 0%nat | 3%nat => 2%nat
  | 1%nat | 4%nat => 1%nat
  | _ => 0%nat
  end.

(** [i32], [i32*] and [{ i32*, i32* }]: the pointer node is shared by the
    two fields, and nothing refers back. *)
Definition shared_store : store :=
  [ IntType "" 32; PointerType "" 0%nat 0; StructType "" false [1%nat; 1%nat] false ].

Definition IsPointer (n : node) : bool :=
  match n with
  | PointerType _ _ _ => true
  | _ => false
  end.

(** [[4 x nil]], [nil*] and [{ nil }]: an array, a pointer and a struct whose
    element, respectively field, is the nil reference 7. *)
Definition nil_store : store :=
  [ ArrayType "" 4 7%nat; PointerType "" 7%nat 0; StructType "" false [7%nat] false ].

End graph.

(** ** Package [ir] *)

Module ir.

Import types.

(** Modelled from the spec: [MetadataAttachment] is declared outside the
    files under study; the only thing the instructions do with an attachment
    is print it with [%v], "a metadata-attachment renderer invoked once per
    attached item", so an attachment is represented by the text it prints. *)
Record MetadataAttachment : Type := { MetadataAttachment_String : string }.

(** Modelled from the spec: the predicate enumerations of package [enum] are
    not part of the files under study; a predicate is printed with [%v] and
    is represented by the text it prints. *)
Record IPred : Type := { IPred_String : string }.
Record FPred : Type := { FPred_String : string }.

(** The thirteen conversion opcodes.  The conversion instructions and the
    conversion expressions are thirteen copies of the same struct and the
    same methods that differ in the opcode they print. *)
Inductive ConvOp : Type :=
| Trunc | ZExt | SExt | FPTrunc | FPExt | FPToUI | FPToSI
| UIToFP | SIToFP | PtrToInt | IntToPtr | BitCast | AddrSpaceCast.

Definition ConvOp_name (op : ConvOp) : string :=
  match op with
  | Trunc => "trunc"
  | ZExt => "zext"
  | SExt => "sext"
  | FPTrunc => "fptrunc"
  | FPExt => "fpext"
  | FPToUI => "fptoui"
  | FPToSI => "fptosi"
  | UIToFP => "uitofp"
  | SIToFP => "sitofp"
  | PtrToInt => "ptrtoint"
  | IntToPtr => "inttoptr"
  | BitCast => "bitcast"
  | AddrSpaceCast => "addrspacecast"
  end.

(** Constants.  [ConstantOther] stands for a constant defined outside the
    files under study (a literal, a global), seen through its type and its
    identifier.
    Modelled from the spec: its [String] method is not part of these files
    and is taken to print the "type-value pair: <type>
    <identifier-or-literal>", as every [String] method in these files
    does. *)
Inductive Constant : Type :=
| ConstantOther (Typ : type) (Ident : string)
| ConstantExpr (e : Expression)
with Expression : Type :=
| ExprConv (op : ConvOp) (From : Constant) (To : type)
| ExprICmp (Pred : IPred) (X Y : Constant)
| ExprFCmp (Pred : FPred) (X Y : Constant)
| ExprSelect (Cond X Y : Constant).

(** Values.  [ValueOther] stands for a value defined outside the files under
    study (a parameter, a global), seen through its type and its identifier,
    and printed as a type-value pair like [ConstantOther]. *)
Inductive Value : Type :=
| ValueOther (Typ : type) (Ident : string)
| ValueConstant (c : Constant)
| ValueInst (inst : Instruction)
with Instruction : Type :=
| InstConv (op : ConvOp) (LocalName : string) (From : Value) (To : type)
    (Metadata : list MetadataAttachment)
| InstExtractValue (LocalName : string) (X : Value) (Indices : list Z)
    (Typ : option type) (Metadata : list MetadataAttachment)
| InstInsertValue (LocalName : string) (X Elem : Value) (Indices : list Z)
    (Typ : option type) (Metadata : list MetadataAttachment).

(** Basic blocks; the terminator interface is declared elsewhere. *)
Record BasicBlock (Terminator : Type) : Type := {
  BasicBlock_LocalName : string;
  BasicBlock_Insts : list Instruction;
  BasicBlock_Term : option Terminator
}.
Arguments BasicBlock_LocalName {Terminator} _.
Arguments BasicBlock_Insts {Terminator} _.
Arguments BasicBlock_Term {Terminator} _.

(** Constructors. *)
Definition NewBlock {Terminator : Type} (name : string) : BasicBlock Terminator :=
  {| BasicBlock_LocalName := name; BasicBlock_Insts := []; BasicBlock_Term := None |}.

Definition NewConv (op : ConvOp) (from : Value) (to : type) : Instruction :=
  InstConv op "" from to [].
Definition NewTrunc := NewConv Trunc.
Definition NewZExt := NewConv ZExt.
Definition NewSExt := NewConv SExt.
Definition NewFPTrunc := NewConv FPTrunc.
Definition NewFPExt := NewConv FPExt.
Definition NewFPToUI := NewConv FPToUI.
Definition NewFPToSI := NewConv FPToSI.
Definition NewUIToFP := NewConv UIToFP.
Definition NewSIToFP := NewConv SIToFP.
Definition NewPtrToInt := NewConv PtrToInt.
Definition NewIntToPtr := NewConv IntToPtr.
Definition NewBitCast := NewConv BitCast.
Definition NewAddrSpaceCast := NewConv AddrSpaceCast.

Definition NewExtractValue (x : Value) (indices : list Z) : Instruction :=
  InstExtractValue "" x indices None [].
Definition NewInsertValue (x elem : Value) (indices : list Z) : Instruction :=
  InstInsertValue "" x elem indices None [].

Definition NewConvExpr (op : ConvOp) (from : Constant) (to : type) : Expression :=
  ExprConv op from to.
Definition NewTruncExpr := NewConvExpr Trunc.
Definition NewZExtExpr := NewConvExpr ZExt.
Definition NewSExtExpr := NewConvExpr SExt.
Definition NewFPTruncExpr := NewConvExpr FPTrunc.
Definition NewFPExtExpr := NewConvExpr FPExt.
Definition NewFPToUIExpr := NewConvExpr FPToUI.
Definition NewFPToSIExpr := NewConvExpr FPToSI.
Definition NewUIToFPExpr := NewConvExpr UIToFP.
Definition NewSIToFPExpr := NewConvExpr SIToFP.
Definition NewPtrToIntExpr := NewConvExpr PtrToInt.
Definition NewIntToPtrExpr := NewConvExpr IntToPtr.
Definition NewBitCastExpr := NewConvExpr BitCast.
Definition NewAddrSpaceCastExpr := NewConvExpr AddrSpaceCast.

Definition NewICmpExpr (pred : IPred) (x y : Constant) : Expression :=
  ExprICmp pred x y.
Definition NewFCmpExpr (pred : FPred) (x y : Constant) : Expression :=
  ExprFCmp pred x y.

(** [&ExprSelect{Cond: cond, X: x, Y: x}]. *)
Definition NewSelectExpr (cond x y : Constant) : Expression :=
  ExprSelect cond x x.

(** Field accessors of [ExprSelect]. *)
Definition ExprSelect_Cond (e : Expression) : option Constant :=
  match e with ExprSelect c _ _ => Some c | _ => None end.
Definition ExprSelect_X (e : Expression) : option Constant :=
  match e with ExprSelect _ x _ => Some x | _ => None end.
Definition ExprSelect_Y (e : Expression) : option Constant :=
  match e with ExprSelect _ _ y => Some y | _ => None end.

(** [%T] of a type. *)
Definition fmt_T (t : type) : string :=
  match t with
  | VoidType _ => "*types.VoidType"
  | FuncType _ _ _ _ => "*types.FuncType"
  | IntType _ _ => "*types.IntType"
  | FloatType _ _ => "*types.FloatType"
  | MMXType _ => "*types.MMXType"
  | PointerType _ _ _ => "*types.PointerType"
  | VectorType _ _ _ => "*types.VectorType"
  | LabelType _ => "*types.LabelType"
  | TokenType _ => "*types.TokenType"
  | MetadataType _ => "*types.MetadataType"
  | ArrayType _ _ _ => "*types.ArrayType"
  | StructType _ _ _ _ => "*types.StructType"
  end.

(** [fields[index]] with Go's run-time bounds check. *)
Definition index_slice {A : Type} (xs : list A) (index : Z) : outcome A :=
  if (index <? 0) || (Z.of_nat (List.length xs) <=? index)
  then Panic (PanicIndexOutOfRange index (List.length xs))
  else match nth_error xs (Z.to_nat index) with
       | Some x => Ret x
       | None => Panic (PanicIndexOutOfRange index (List.length xs))
       end.

(** [aggregateElemType]. *)
Fixpoint aggregateElemType (t : type) (indices : list Z) : outcome type :=
  match indices with
  | [] => Ret t
  | index :: rest =>
      match t with
      | ArrayType _ _ elem => aggregateElemType elem rest
      | StructType _ _ fields _ =>
          field <- index_slice fields index ;;
          aggregateElemType field rest
      | _ =>
          Panic (PanicError ("support for aggregate type " ++ fmt_T t
                               ++ " not yet implemented"))
      end
  end.

(** The [Simplify] methods of the sixteen expressions. *)
Definition Simplify (e : Expression) : outcome Constant :=
  match e with
  | ExprConv _ _ _ => Panic not_yet_implemented
  | ExprICmp _ _ _ => Panic not_yet_implemented
  | ExprFCmp _ _ _ => Panic not_yet_implemented
  | ExprSelect _ _ _ => Panic not_yet_implemented
  end.

(** The [Type] methods of the expressions. *)
Fixpoint Constant_Type (c : Constant) : outcome type :=
  match c with
  | ConstantOther typ _ => Ret typ
  | ConstantExpr e => Expr_Type e
  end
with Expr_Type (e : Expression) : outcome type :=
  match e with
  | ExprConv _ _ to => Ret to
  | ExprICmp _ _ _ => Panic not_yet_implemented
  | ExprFCmp _ _ _ => Panic not_yet_implemented
  | ExprSelect _ x _ => Constant_Type x
  end.

(** [BasicBlock] methods. *)
Definition BasicBlock_Type {Terminator : Type} (block : BasicBlock Terminator) : outcome type :=
  Ret Label.
Definition BasicBlock_Ident {Terminator : Type} (block : BasicBlock Terminator) : outcome string :=
  Panic not_yet_implemented.
Definition BasicBlock_Name {Terminator : Type} (block : BasicBlock Terminator) : outcome string :=
  Ret (BasicBlock_LocalName block).
Definition BasicBlock_SetName {Terminator : Type} (block : BasicBlock Terminator)
    (name : string) : outcome (BasicBlock Terminator) :=
  Ret {| BasicBlock_LocalName := name;
         BasicBlock_Insts := BasicBlock_Insts block;
         BasicBlock_Term := BasicBlock_Term block |}.

(** The trailing loop [for _, md := range inst.Metadata { ", %v" }]. *)
Fixpoint metadata_suffix (mds : list MetadataAttachment) : string :=
  match mds with
  | [] => ""
  | md :: rest => ", " ++ MetadataAttachment_String md ++ metadata_suffix rest
  end.

(** The loop [for _, index := range inst.Indices { ", %v" }]. *)
Fixpoint indices_suffix (indices : list Z) : string :=
  match indices with
  | [] => ""
  | index :: rest => ", " ++ fmt_d index ++ indices_suffix rest
  end.

Section WithLocal.

Variable Local : string -> string.

(** [String] and [Ident] of the expressions.  [String] is
    [fmt.Sprintf("%v %v", e.Type(), e.Ident())]: a panic of [Type] is raised
    in the caller, while an operand printed with [%v] goes through
    [fmt_v]. *)
Fixpoint Constant_String (c : Constant) : outcome string :=
  match c with
  | ConstantOther typ ident => Ret (types.String Local typ ++ " " ++ ident)
  | ConstantExpr e =>
      typ <- Expr_Type e ;;
      Ret (types.String Local typ ++ " " ++ Expr_Ident e)
  end
with Expr_Ident (e : Expression) : string :=
  match e with
  | ExprConv op from to =>
      ConvOp_name op ++ " (" ++ fmt_v (Constant_String from) ++ " to "
        ++ types.String Local to ++ ")"
  | ExprICmp pred x y =>
      "icmp " ++ IPred_String pred ++ " (" ++ fmt_v (Constant_String x) ++ ", "
        ++ fmt_v (Constant_String y) ++ ")"
  | ExprFCmp pred x y =>
      "fcmp " ++ FPred_String pred ++ " (" ++ fmt_v (Constant_String x) ++ ", "
        ++ fmt_v (Constant_String y) ++ ")"
  | ExprSelect cond x y =>
      "select (" ++ fmt_v (Constant_String cond) ++ ", "
        ++ fmt_v (Constant_String x) ++ ", " ++ fmt_v (Constant_String y) ++ ")"
  end.

Definition Expr_String (e : Expression) : outcome string :=
  typ <- Expr_Type e ;;
  Ret (types.String Local typ ++ " " ++ Expr_Ident e).

(** The [Type] methods of the instructions.  [InstExtractValue] and
    [InstInsertValue] store the computed type in [Typ] on first use; the
    value returned is the stored one when present. *)
Fixpoint Value_Type (v : Value) : outcome type :=
  match v with
  | ValueOther typ _ => Ret typ
  | ValueConstant c => Constant_Type c
  | ValueInst inst => Inst_Type inst
  end
with Inst_Type (inst : Instruction) : outcome type :=
  match inst with
  | InstConv _ _ _ to _ => Ret to
  | InstExtractValue _ x indices typ _ =>
      match typ with
      | Some t => Ret t
      | None => xt <- Value_Type x ;; aggregateElemType xt indices
      end
  | InstInsertValue _ x _ _ typ _ =>
      match typ with
      | Some t => Ret t
      | None => Value_Type x
      end
  end.

Definition Inst_LocalName (inst : Instruction) : string :=
  match inst with
  | InstConv _ name _ _ _ => name
  | InstExtractValue name _ _ _ _ => name
  | InstInsertValue name _ _ _ _ _ => name
  end.

Definition Inst_Metadata (inst : Instruction) : list MetadataAttachment :=
  match inst with
  | InstConv _ _ _ _ mds => mds
  | InstExtractValue _ _ _ _ mds => mds
  | InstInsertValue _ _ _ _ _ mds => mds
  end.

(** The instruction with an empty attachment list. *)
Definition without_metadata (inst : Instruction) : Instruction :=
  match inst with
  | InstConv op name from to _ => InstConv op name from to []
  | InstExtractValue name x indices typ _ => InstExtractValue name x indices typ []
  | InstInsertValue name x elem indices typ _ =>
      InstInsertValue name x elem indices typ []
  end.

Definition Inst_Name (inst : Instruction) : string := Inst_LocalName inst.

Definition Inst_SetName (inst : Instruction) (name : string) : Instruction :=
  match inst with
  | InstConv op _ from to mds => InstConv op name from to mds
  | InstExtractValue _ x indices typ mds => InstExtractValue name x indices typ mds
  | InstInsertValue _ x elem indices typ mds =>
      InstInsertValue name x elem indices typ mds
  end.

Definition Inst_Ident (inst : Instruction) : string := Local (Inst_LocalName inst).

(** [String] of instructions and values. *)
Definition Inst_String (inst : Instruction) : outcome string :=
  typ <- Inst_Type inst ;;
  Ret (types.String Local typ ++ " " ++ Inst_Ident inst).

Definition Value_String (v : Value) : outcome string :=
  match v with
  | ValueOther typ ident => Ret (types.String Local typ ++ " " ++ ident)
  | ValueConstant c => Constant_String c
  | ValueInst inst => Inst_String inst
  end.

(** The [Def] methods of the instructions. *)
Definition Inst_Def (inst : Instruction) : string :=
  match inst with
  | InstConv op _ from to mds =>
      ConvOp_name op ++ " " ++ fmt_v (Value_String from) ++ " to "
        ++ types.String Local to ++ metadata_suffix mds
  | InstExtractValue _ x indices _ mds =>
      "extractvalue " ++ fmt_v (Value_String x)
        ++ indices_suffix indices ++ metadata_suffix mds
  | InstInsertValue _ x elem indices _ mds =>
      "insertvalue " ++ fmt_v (Value_String x) ++ ", " ++ fmt_v (Value_String elem)
        ++ indices_suffix indices ++ metadata_suffix mds
  end.

End WithLocal.

(** The state [Type] leaves behind.  [InstExtractValue.Type] and
    [InstInsertValue.Type] first call [Type] on the aggregate operand, which
    may fill the operand's own cache, and then store the result in [Typ];
    when the computation panics nothing is stored. *)
Fixpoint Value_after_Type (v : Value) : Value :=
  match v with
  | ValueInst inst => ValueInst (Inst_after_Type inst)
  | _ => v
  end
with Inst_after_Type (inst : Instruction) : Instruction :=
  match inst with
  | InstConv _ _ _ _ _ => inst
  | InstExtractValue name x indices typ mds =>
      match typ with
      | Some _ => inst
      | None =>
          match (xt <- Value_Type x ;; aggregateElemType xt indices) with
          | Ret t => InstExtractValue name (Value_after_Type x) indices (Some t) mds
          | Panic _ => InstExtractValue name (Value_after_Type x) indices None mds
          end
      end
  | InstInsertValue name x elem indices typ mds =>
      match typ with
      | Some _ => inst
      | None =>
          match Value_Type x with
          | Ret t => InstInsertValue name (Value_after_Type x) elem indices (Some t) mds
          | Panic _ => InstInsertValue name (Value_after_Type x) elem indices None mds
          end
      end
  end.

(** The constants whose type goes back to a comparison: an icmp or fcmp
    expression, or a select whose first operand is such a constant. *)
Fixpoint Constant_untyped (c : Constant) : bool :=
  match c with
  | ConstantOther _ _ => false
  | ConstantExpr e => Expr_untyped e
  end
with Expr_untyped (e : Expression) : bool :=
  match e with
  | ExprConv _ _ _ => false
  | ExprICmp _ _ _ | ExprFCmp _ _ _ => true
  | ExprSelect _ x _ => Constant_untyped x
  end.

End ir.

(** ** Inputs used in the examples *)

(** Modelled from the spec: [enc.Local] is not part of the files under study.
    The spec calls it the function "that turns a raw name into the valid
    local-identifier syntax" and writes the identifiers of the values named
    [x] and [s] as [%x] and [%s]; this instance prefixes the name with [%]
    and is used at names that need no escaping. *)
Definition Local_plain (name : string) : string := "%" ++ name.

(** [Struct{i32, Array(4, Struct{i8, i16})}]. *)
Definition nested_aggregate : types.type :=
  types.NewStruct [types.I32; types.NewArray 4 (types.NewStruct [types.I8; types.I16])].

(** [Struct{i32, i8*}], a literal struct with a pointer field. *)
Definition struct_with_pointer : types.type :=
  types.NewStruct [types.I32; types.I8Ptr].

(** An index path that does not address an element of the type: a struct
    field index outside the field list, or an index left over at a type that
    is neither an array nor a struct. *)
Definition is_aggregate (t : types.type) : bool :=
  match t with
  | types.ArrayType _ _ _ | types.StructType _ _ _ _ => true
  | _ => false
  end.

Inductive Malformed : types.type -> list Z -> Prop :=
| Malformed_field : forall alias packed fields opaque index rest,
    index < 0 \/ Z.of_nat (List.length fields) <= index ->
    Malformed (types.StructType alias packed fields opaque) (index :: rest)
| Malformed_non_aggregate : forall t index rest,
    is_aggregate t = false ->
    Malformed t (index :: rest)
| Malformed_below_array : forall alias len elem index rest,
    Malformed elem rest ->
    Malformed (types.ArrayType alias len elem) (index :: rest)
| Malformed_below_struct : forall alias packed fields opaque index field rest,
    0 <= index ->
    nth_error fields (Z.to_nat index) = Some field ->
    Malformed field rest ->
    Malformed (types.StructType alias packed fields opaque) (index :: rest).

(** The same paths together with the panic the first failing step raises:
    Go's run-time index-out-of-range panic, with the index and the number of
    fields, at a struct index outside the field list; the error value
    "support for aggregate type T not yet implemented", with the Go name of
    the type reached, at a type that is neither an array nor a struct. *)
Inductive MalformedWith : types.type -> list Z -> panic_value -> Prop :=
| MalformedWith_field : forall alias packed fields opaque index rest,
    index < 0 \/ Z.of_nat (List.length fields) <= index ->
    MalformedWith (types.StructType alias packed fields opaque) (index :: rest)
      (PanicIndexOutOfRange index (List.length fields))
| MalformedWith_non_aggregate : forall t index rest,
    is_aggregate t = false ->
    MalformedWith t (index :: rest)
      (PanicError ("support for aggregate type " ++ ir.fmt_T t
                     ++ " not yet implemented"))
| MalformedWith_below_array : forall alias len elem index rest p,
    MalformedWith elem rest p ->
    MalformedWith (types.ArrayType alias len elem) (index :: rest) p
| MalformedWith_below_struct : forall alias packed fields opaque index field rest p,
    0 <= index ->
    nth_error fields (Z.to_nat index) = Some field ->
    MalformedWith field rest p ->
    MalformedWith (types.StructType alias packed fields opaque) (index :: rest) p.

(** Two metadata attachments, by the text they print. *)
Definition md_dbg : ir.MetadataAttachment :=
  {| ir.MetadataAttachment_String := "!dbg !7" |}.
Definition md_tbaa : ir.MetadataAttachment :=
  {| ir.MetadataAttachment_String := "!tbaa !2" |}.

(** The two panics [aggregateElemType] can raise. *)
Definition aggregate_panic (p : panic_value) : bool :=
  match p with
  | PanicError _ | PanicIndexOutOfRange _ _ => true
  | _ => false
  end.

(** ** Induction over type trees *)

Section TypeInduction.

Import types.

Variable P : type -> Prop.
Hypothesis HVoid : forall a, P (VoidType a).
Hypothesis HFunc : forall a r ps v, P r -> Forall P ps -> P (FuncType a r ps v).
Hypothesis HInt : forall a n, P (IntType a n).
Hypothesis HFloat : forall a k, P (FloatType a k).
Hypothesis HMMX : forall a, P (MMXType a).
Hypothesis HPointer : forall a e s, P e -> P (PointerType a e s).
Hypothesis HVector : forall a n e, P e -> P (VectorType a n e).
Hypothesis HLabel : forall a, P (LabelType a).
Hypothesis HToken : forall a, P (TokenType a).
Hypothesis HMetadata : forall a, P (MetadataType a).
Hypothesis HArray : forall a n e, P e -> P (ArrayType a n e).
Hypothesis HStruct : forall a p fs o, Forall P fs -> P (StructType a p fs o).

(** Induction over type trees, with the hypothesis available for every
    parameter and field. *)
Fixpoint type_tree_ind (t : type) : P t :=
  let all := fix all (ts : list type) : Forall P ts :=
    match ts with
    | [] => Forall_nil P
    | t' :: ts' => Forall_cons t' (type_tree_ind t') (all ts')
    end in
  match t with
  | VoidType a => HVoid a
  | FuncType a r ps v => HFunc a r ps v (type_tree_ind r) (all ps)
  | IntType a n => HInt a n
  | FloatType a k => HFloat a k
  | MMXType a => HMMX a
  | PointerType a e s => HPointer a e s (type_tree_ind e)
  | VectorType a n e => HVector a n e (type_tree_ind e)
  | LabelType a => HLabel a
  | TokenType a => HToken a
  | MetadataType a => HMetadata a
  | ArrayType a n e => HArray a n e (type_tree_ind e)
  | StructType a p fs o => HStruct a p fs o (all fs)
  end.

End TypeInduction.

Scheme Value_mutual_ind := Induction for ir.Value Sort Prop
  with Instruction_mutual_ind := Induction for ir.Instruction Sort Prop.

Scheme Constant_mutual_ind := Induction for ir.Constant Sort Prop
  with Expression_mutual_ind := Induction for ir.Expression Sort Prop.

(** * Properties *)

(** ** Strings *)

Lemma last_char_app (a b : string) :
  b <> "" -> last_char (a ++ b) = last_char b.
Proof.
  intros Hb. induction a as [|c a IH]; [reflexivity|].
  simpl. rewrite IH.
  destruct (a ++ b) eqn:E; [|reflexivity].
  destruct a; simpl in E; [contradiction | discriminate].
Qed.

Lemma ends_with_app (c : ascii) (a b : string) :
  b <> "" -> ends_with c (a ++ b) = ends_with c b.
Proof. intros Hb. unfold ends_with. now rewrite last_char_app. Qed.

Lemma app_nonempty_r (a b : string) : b <> "" -> a ++ b <> "".
Proof. destruct a; simpl; [auto | discriminate]. Qed.

Lemma append_empty_r (a : string) : a ++ "" = a.
Proof. induction a as [|c a IH]; simpl; [reflexivity | now rewrite IH]. Qed.

Lemma append_assoc (a b c : string) : (a ++ b) ++ c = a ++ (b ++ c).
Proof. induction a as [|d a IH]; simpl; [reflexivity | now rewrite IH]. Qed.

Lemma string_forall_app (p : ascii -> bool) (a b : string) :
  string_forall p (a ++ b) = string_forall p a && string_forall p b.
Proof.
  induction a as [|c a IH]; simpl; [reflexivity|].
  now rewrite IH, andb_assoc.
Qed.

Lemma string_forall_last (p : ascii -> bool) (s : string) (c : ascii) :
  string_forall p s = true -> last_char s = Some c -> p c = true.
Proof.
  induction s as [|d s IH]; simpl; [discriminate|].
  intros H L. apply andb_true_iff in H as [Hd Hs].
  destruct s; [now inversion L; subst | now apply IH].
Qed.

Lemma no_star_not_ends_with (s : string) :
  string_forall not_star s = true -> ends_with "*" s = false.
Proof.
  intros H. unfold ends_with. destruct (last_char s) as [c|] eqn:L; [|reflexivity].
  apply (string_forall_last _ _ _ H) in L. unfold not_star in L.
  now apply negb_true_iff in L.
Qed.

Lemma string_of_uint_no_star (u : Decimal.uint) :
  string_forall not_star (NilEmpty.string_of_uint u) = true.
Proof. induction u; simpl; auto. Qed.

Lemma fmt_d_no_star (z : Z) : string_forall not_star (fmt_d z) = true.
Proof.
  unfold fmt_d, NilZero.string_of_int, NilZero.string_of_uint.
  destruct (Z.to_int z) as [u|u]; destruct u; simpl;
    auto using string_of_uint_no_star.
Qed.

(** ** Type trees *)

Section TypeTrees.

Import types.

Variable Local : string -> string.

Lemma String_literal (t : type) :
  has_alias (Alias t) = false -> String Local t = Def Local t.
Proof. intros H. unfold String, String_of. now rewrite H. Qed.

Lemma String_named (t : type) :
  has_alias (Alias t) = true -> String Local t = Local (Alias t).
Proof. intros H. unfold String, String_of. now rewrite H. Qed.

Lemma unaliased_top (t : type) :
  unaliased t = true -> has_alias (Alias t) = false.
Proof.
  destruct t; cbn [unaliased]; intros H;
    apply andb_true_iff in H as [H _]; now apply negb_true_iff in H.
Qed.

(** The definition of a pointer type ends with a star. *)
Lemma Def_pointer_star (a : string) (e : type) (s : Z) :
  ends_with "*" (Def Local (PointerType a e s)) = true.
Proof.
  cbn [Def].
  rewrite ends_with_app by (apply app_nonempty_r; discriminate).
  now rewrite ends_with_app by discriminate.
Qed.

Ltac last_literal :=
  rewrite ?append_empty_r;
  repeat (rewrite ends_with_app by (repeat apply app_nonempty_r; discriminate));
  reflexivity.

(** The definition of any other type does not. *)
Lemma Def_other_no_star (t : type) :
  IsPointer t = false -> ends_with "*" (Def Local t) = false.
Proof.
  destruct t; cbn [IsPointer Def]; intros H; try discriminate; try reflexivity.
  - destruct Variadic; last_literal.
  - apply no_star_not_ends_with. simpl. apply fmt_d_no_star.
  - now destruct Kind.
  - last_literal.
  - last_literal.
  - destruct Opaque; [reflexivity|]. destruct Packed; last_literal.
Qed.

(** A literal pointer type and a literal type of another variant never print
    the same text. *)
Lemma String_pointer_other (t u : type) :
  has_alias (Alias t) = false -> has_alias (Alias u) = false ->
  IsPointer t = true -> IsPointer u = false ->
  String.eqb (String Local t) (String Local u) = false.
Proof.
  intros Ht Hu Pt Pu. rewrite !String_literal by assumption.
  apply String.eqb_neq. intros E.
  destruct t; try discriminate.
  pose proof (Def_pointer_star Alias0 t AddrSpace) as Hs.
  rewrite E, Def_other_no_star in Hs by assumption. discriminate.
Qed.

(** *** [Equal] on literal type trees *)

Ltac split_and H :=
  repeat match type of H with
         | (_ && _) = true => let H' := fresh H in apply andb_true_iff in H as [H' H]
         end.

Ltac split_if H :=
  repeat match type of H with
         | context [if negb ?b then _ else _] =>
             destruct b eqn:?; cbn [negb] in H; try discriminate H
         | context [if ?b || ?c then _ else _] =>
             destruct (b || c) eqn:?; try discriminate H
         end.

Lemma all_equal_refl (ts : list type) :
  Forall (fun t => Equal Local t t = true) ts ->
  all_equal (Equal Local) ts ts = true.
Proof. induction 1 as [|t ts Ht _ IH]; simpl; [reflexivity | now rewrite Ht]. Qed.

Lemma Equal_refl (t : type) : Equal Local t t = true.
Proof.
  induction t as [a|a r ps v IHr IHps|a n|a k|a|a e s IHe|a n e IHe|a|a|a|a n e IHe
                 |a p fs o IHfs] using type_tree_ind; cbn [Equal]; try reflexivity.
  - now rewrite IHr, Nat.eqb_refl, all_equal_refl, Bool.eqb_reflx.
  - apply Z.eqb_refl.
  - now destruct k.
  - apply String.eqb_refl.
  - now rewrite Z.eqb_refl.
  - now rewrite Z.eqb_refl.
  - destruct (has_alias a || has_alias a); [apply String.eqb_refl|].
    now rewrite Bool.eqb_reflx, Nat.eqb_refl, all_equal_refl.
Qed.

Lemma all_equal_sym (ts : list type) :
  Forall (symmetric_at Local) ts ->
  forall us, forallb unaliased ts = true -> forallb unaliased us = true ->
             all_equal (Equal Local) ts us = true ->
             all_equal (Equal Local) us ts = true.
Proof.
  induction 1 as [|t ts Ht _ IH]; intros [|u us] Uts Uus A; simpl in *; auto.
  destruct (Equal Local t u) eqn:E; [|discriminate].
  split_and Uts. split_and Uus.
  rewrite (Ht u) by assumption. now apply IH.
Qed.

Lemma bool_eqb_sym (a b : bool) : Bool.eqb a b = Bool.eqb b a.
Proof. now destruct a, b. Qed.

Lemma FloatKind_eqb_sym (a b : FloatKind) : FloatKind_eqb a b = FloatKind_eqb b a.
Proof. now destruct a, b. Qed.

Lemma Equal_sym (t : type) : symmetric_at Local t.
Proof.
  induction t as [a|a r ps v IHr IHps|a n|a k|a|a e s IHe|a n e IHe|a|a|a|a n e IHe
                 |a p fs o IHfs] using type_tree_ind; intros u Ut Uu H.
  6: { (* pointer *)
    destruct (IsPointer u) eqn:Pu.
    - destruct u; try discriminate Pu. cbn [Equal] in *.
      now rewrite String.eqb_sym.
    - cbn [Equal] in H.
      rewrite String_pointer_other in H; auto using unaliased_top; discriminate. }
  all: destruct u; cbn [Equal] in H |- *; try discriminate H; try reflexivity.
  - cbn [unaliased] in Ut, Uu. split_and Ut. split_and Uu. split_if H.
    rewrite (IHr u) by assumption.
    rewrite Nat.eqb_sym, Heqb0.
    rewrite (all_equal_sym ps IHps Params) by assumption.
    cbn [negb]. now rewrite bool_eqb_sym.
  - now rewrite Z.eqb_sym.
  - now rewrite FloatKind_eqb_sym.
  - cbn [unaliased] in Ut, Uu. split_and Ut. split_and Uu. split_if H.
    rewrite Z.eqb_sym, Heqb. cbn [negb]. now apply IHe.
  - cbn [unaliased] in Ut, Uu. split_and Ut. split_and Uu. split_if H.
    rewrite Z.eqb_sym, Heqb. cbn [negb]. now apply IHe.
  - cbn [unaliased Alias] in Ut, Uu. split_and Ut. split_and Uu.
    apply negb_true_iff in Ut0, Uu0. rewrite Ut0, Uu0 in H |- *.
    cbn [orb] in H |- *. split_if H.
    rewrite bool_eqb_sym, Heqb, Nat.eqb_sym, Heqb0. cbn [negb].
    now apply all_equal_sym.
Qed.

Lemma all_equal_trans (ts : list type) :
  Forall (transitive_at Local) ts ->
  forall us vs,
    forallb unaliased ts = true -> forallb unaliased us = true ->
    forallb unaliased vs = true ->
    List.length ts = List.length us ->
    all_equal (Equal Local) ts us = true ->
    all_equal (Equal Local) us vs = true ->
    all_equal (Equal Local) ts vs = true.
Proof.
  induction 1 as [|t ts Ht _ IH]; intros [|u us] [|v vs] Uts Uus Uvs L A B;
    simpl in *; auto; try discriminate.
  destruct (Equal Local t u) eqn:E1; [|discriminate].
  destruct (Equal Local u v) eqn:E2; [|discriminate].
  split_and Uts. split_and Uus. split_and Uvs.
  rewrite (Ht u v) by assumption. injection L as L. now apply (IH us).
Qed.

Lemma FloatKind_eqb_eq (a b : FloatKind) : FloatKind_eqb a b = true -> a = b.
Proof. now destruct a, b. Qed.

Lemma Equal_trans (t : type) : transitive_at Local t.
Proof.
  induction t as [a|a r ps v IHr IHps|a n|a k|a|a e s IHe|a n e IHe|a|a|a|a n e IHe
                 |a p fs o IHfs] using type_tree_ind; intros u w Ut Uu Uw H1 H2.
  6: { (* pointer *)
    destruct (IsPointer u) eqn:Pu.
    - destruct u; try discriminate Pu. cbn [Equal] in *.
      apply String.eqb_eq in H1, H2. apply String.eqb_eq. congruence.
    - cbn [Equal] in H1.
      rewrite String_pointer_other in H1; auto using unaliased_top; discriminate. }
  all: destruct u; cbn [Equal] in H1; try discriminate H1;
    destruct w; cbn [Equal] in H2 |- *; try discriminate H2; try reflexivity.
  - cbn [unaliased] in Ut, Uu, Uw. split_and Ut. split_and Uu. split_and Uw.
    split_if H1. split_if H2.
    rewrite (IHr u w) by assumption.
    apply Nat.eqb_eq in Heqb0, Heqb3.
    rewrite (all_equal_trans ps IHps Params Params0) by assumption.
    rewrite Heqb0, Heqb3, Nat.eqb_refl. cbn [negb].
    apply Bool.eqb_prop in H1, H2. subst. apply Bool.eqb_reflx.
  - apply Z.eqb_eq in H1, H2. apply Z.eqb_eq. congruence.
  - apply FloatKind_eqb_eq in H1, H2. subst. now destruct Kind0.
  - cbn [unaliased] in Ut, Uu, Uw. split_and Ut. split_and Uu. split_and Uw.
    split_if H1. split_if H2. apply Z.eqb_eq in Heqb, Heqb0.
    subst. rewrite Z.eqb_refl. cbn [negb]. now apply (IHe u).
  - cbn [unaliased] in Ut, Uu, Uw. split_and Ut. split_and Uu. split_and Uw.
    split_if H1. split_if H2. apply Z.eqb_eq in Heqb, Heqb0.
    subst. rewrite Z.eqb_refl. cbn [negb]. now apply (IHe u).
  - cbn [unaliased Alias] in Ut, Uu, Uw. split_and Ut. split_and Uu. split_and Uw.
    apply negb_true_iff in Ut0, Uu0, Uw0. rewrite Ut0, Uu0 in H1.
    rewrite Uu0, Uw0 in H2. rewrite Ut0, Uw0. cbn [orb] in H1, H2 |- *.
    split_if H1. split_if H2.
    apply Bool.eqb_prop in Heqb, Heqb1. apply Nat.eqb_eq in Heqb0, Heqb2.
    subst. rewrite Bool.eqb_reflx, Heqb0, Heqb2, Nat.eqb_refl. cbn [negb].
    apply (all_equal_trans fs IHfs Fields); auto.
Qed.

(** C9: over literal (unaliased), finite, acyclic type trees [Equal] is an
    equivalence relation.  For literal trees [t], [u] and [v]: [t] equals
    itself; if [t] equals [u] then [u] equals [t]; if [t] equals [u] and [u]
    equals [v] then [t] equals [v].  Pointer types, compared through their
    printed text, are included. *)
Theorem Equal_equivalence (t u v : type) :
  unaliased t = true -> unaliased u = true -> unaliased v = true ->
  Equal Local t t = true /\
  (Equal Local t u = true -> Equal Local u t = true) /\
  (Equal Local t u = true -> Equal Local u v = true -> Equal Local t v = true).
Proof.
  intros Ut Uu Uv. split; [apply Equal_refl|]. split.
  - now apply Equal_sym.
  - now apply Equal_trans.
Qed.

(** Outside the struct and pointer variants [Equal] never reads the alias of
    either side. *)
Lemma Equal_ignores_alias (t u : type) (a b : string) :
  match t with
  | StructType _ _ _ _ | PointerType _ _ _ => True
  | _ => Equal Local (SetAlias t a) (SetAlias u b) = Equal Local t u
  end.
Proof. destruct t; try exact I; destruct u; reflexivity. Qed.

(** C6 (amended): nominal identity is a rule of struct types.  When a struct
    type carries a non-empty alias, [Equal] between it and any other struct
    type, in either direction, is the equality of the two alias strings,
    whatever the packed flags, the fields and the opaque flags are; so an
    identified struct is never equal to a literal one.  For the variants
    other than struct and pointer, [Equal] gives the same answer whatever
    aliases the two sides carry. *)
Theorem Equal_identified_struct
    (ta ua : string) (tp up : bool) (tf uf : list type) (to uo : bool) :
  has_alias ta = true ->
  Equal Local (StructType ta tp tf to) (StructType ua up uf uo) = String.eqb ta ua /\
  Equal Local (StructType ua up uf uo) (StructType ta tp tf to) = String.eqb ua ta /\
  (has_alias ua = false ->
   Equal Local (StructType ta tp tf to) (StructType ua up uf uo) = false /\
   Equal Local (StructType ua up uf uo) (StructType ta tp tf to) = false) /\
  (forall (t u : type) (a b : string),
      match t with
      | StructType _ _ _ _ | PointerType _ _ _ => True
      | _ => Equal Local (SetAlias t a) (SetAlias u b) = Equal Local t u
      end).
Proof.
  intros Ha. cbn [Equal]. rewrite Ha, orb_true_r. cbn [orb].
  repeat split; try apply Equal_ignores_alias.
  all: destruct (String.eqb_spec ta ua) as [E|E];
    try (rewrite <- E in H; congruence); try reflexivity.
  all: destruct (String.eqb_spec ua ta) as [E'|E']; congruence.
Qed.

End TypeTrees.

(** ** The aggregate element-type helper *)

Section Aggregates.

Import types ir.

Lemma index_slice_in_range {A : Type} (xs : list A) (index : Z) (x : A) :
  0 <= index -> nth_error xs (Z.to_nat index) = Some x ->
  index_slice xs index = Ret x.
Proof.
  intros H0 Hn. unfold index_slice.
  assert (Z.to_nat index < List.length xs)%nat as Hlt
      by (apply nth_error_Some; congruence).
  destruct (index <? 0) eqn:E1; [apply Z.ltb_lt in E1; lia|].
  destruct (Z.of_nat (List.length xs) <=? index) eqn:E2;
    [apply Z.leb_le in E2; lia|].
  cbn [orb]. now rewrite Hn.
Qed.

Lemma index_slice_out_of_range {A : Type} (xs : list A) (index : Z) :
  index < 0 \/ Z.of_nat (List.length xs) <= index ->
  index_slice xs index = Panic (PanicIndexOutOfRange index (List.length xs)).
Proof.
  intros H. unfold index_slice.
  destruct (index <? 0) eqn:E1; [reflexivity|].
  destruct (Z.of_nat (List.length xs) <=? index) eqn:E2; [reflexivity|].
  apply Z.ltb_ge in E1. apply Z.leb_gt in E2. lia.
Qed.

Lemma index_slice_cases {A : Type} (xs : list A) (index : Z) :
  (exists x, 0 <= index /\ nth_error xs (Z.to_nat index) = Some x /\
             index_slice xs index = Ret x) \/
  ((index < 0 \/ Z.of_nat (List.length xs) <= index) /\
   index_slice xs index = Panic (PanicIndexOutOfRange index (List.length xs))).
Proof.
  destruct (Z.ltb_spec index 0) as [Hn|Hn].
  { right. split; [now left|]. apply index_slice_out_of_range. now left. }
  destruct (Z.leb_spec (Z.of_nat (List.length xs)) index) as [Hl|Hl].
  { right. split; [now right|]. apply index_slice_out_of_range. now right. }
  left. destruct (nth_error xs (Z.to_nat index)) as [x|] eqn:E.
  - exists x. auto using index_slice_in_range.
  - apply nth_error_None in E. lia.
Qed.

(** C1 (amended): when the index path contains a struct field index outside
    the field list, or an index is left over at a type that is neither an
    array nor a struct, [aggregateElemType] returns nothing to its caller:
    it panics, with Go's run-time index-out-of-range panic (carrying that
    index and the number of fields) in the first case and with the error
    value "support for aggregate type T not yet implemented" (T the Go name
    of the type reached) in the second; the panic is the one of the first
    step of the path that fails. *)
Theorem aggregateElemType_malformed_panics (t : type) (indices : list Z) :
  Malformed t indices ->
  exists p, MalformedWith t indices p /\
            aggregateElemType t indices = Panic p /\ aggregate_panic p = true.
Proof.
  induction 1 as [a p fs o i rest Hi | t i rest Ht | a n e i rest _ IH
                 | a p fs o i f rest H0 Hn _ IH].
  - cbn [aggregateElemType]. rewrite index_slice_out_of_range by assumption.
    eexists. split; [now apply MalformedWith_field | split; reflexivity].
  - eexists. split; [now apply MalformedWith_non_aggregate|].
    destruct t; try discriminate Ht; cbn [aggregateElemType]; split; reflexivity.
  - destruct IH as (q & Hq & E & Hk). exists q.
    split; [now apply MalformedWith_below_array | now split].
  - destruct IH as (q & Hq & E & Hk). exists q.
    split; [eapply MalformedWith_below_struct; eassumption|].
    cbn [aggregateElemType]. rewrite (index_slice_in_range fs i f) by assumption.
    now split.
Qed.

(** The panic of a malformed path is determined by the type and the path. *)
Lemma MalformedWith_unique (t : type) (indices : list Z) (p q : panic_value) :
  MalformedWith t indices p -> MalformedWith t indices q -> p = q.
Proof.
  intros Hp. revert q.
  induction Hp as [a k fs o i rest Hi | t i rest Ht | a n e i rest p _ IH
                  | a k fs o i f rest p H0 Hn _ IH]; intros q Hq.
  - inversion Hq; subst; try reflexivity; try discriminate.
    match goal with H : nth_error fs _ = Some _ |- _ =>
      apply (f_equal (fun o => match o with Some _ => true | None => false end)) in H;
      assert (Z.to_nat i < List.length fs)%nat
        by (apply nth_error_Some; intros E; rewrite E in H; discriminate)
    end. lia.
  - inversion Hq; subst; try reflexivity; discriminate.
  - inversion Hq; subst; try discriminate. now apply IH.
  - inversion Hq; subst; try discriminate.
    + assert (Z.to_nat i < List.length fs)%nat
        by (apply nth_error_Some; congruence). lia.
    + apply IH. congruence.
Qed.

(** Conversely, a path on which [aggregateElemType] panics is malformed: on
    every other path it returns a type. *)
Lemma aggregateElemType_panics_malformed (indices : list Z) :
  forall t p, aggregateElemType t indices = Panic p -> Malformed t indices.
Proof.
  induction indices as [|i rest IH]; intros t p H; [discriminate|].
  destruct t; try (apply Malformed_non_aggregate; reflexivity).
  - cbn [aggregateElemType] in H. apply Malformed_below_array. eapply IH, H.
  - cbn [aggregateElemType] in H.
    destruct (index_slice_cases Fields i) as [(f & H0 & Hn & E) | [Hr E]].
    + rewrite E in H. cbn [bind] in H.
      eapply Malformed_below_struct; eauto.
    + now apply Malformed_field.
Qed.

(** C7: the resolver follows the path and checks struct indices only.  An
    empty path returns the base type; at an array one index is consumed,
    whatever its value and the array length, and the walk continues in the
    element type; at a struct the index selects the field by position, under
    Go's bounds check: the index that counts the fields before a field
    selects that field, and a negative index or one not below the number of
    fields panics; in [Struct{i32, Array(4, Struct{i8, i16})}] the paths
    [1, 2, 1] and [1, 99, 1] both lead to [i16], [1, 2, 0] and [1, -7, 0]
    lead to [i8], [0] to [i32], and [1, 2, 5], [2] and [-1] panic on the
    struct index. *)
Theorem aggregateElemType_follows_path :
  (forall t, aggregateElemType t [] = Ret t) /\
  (forall alias len elem index rest,
      aggregateElemType (ArrayType alias len elem) (index :: rest)
      = aggregateElemType elem rest) /\
  (forall alias packed fields opaque index rest,
      aggregateElemType (StructType alias packed fields opaque) (index :: rest)
      = bind (index_slice fields index) (fun field => aggregateElemType field rest)) /\
  aggregateElemType nested_aggregate [1; 2; 1] = Ret I16 /\
  aggregateElemType nested_aggregate [1; 99; 1] = Ret I16 /\
  (forall alias packed before field after opaque rest,
      aggregateElemType (StructType alias packed (before ++ field :: after) opaque)
        (Z.of_nat (List.length before) :: rest)
      = aggregateElemType field rest) /\
  (forall alias packed fields opaque beyond rest,
      aggregateElemType (StructType alias packed fields opaque)
        (Z.of_nat (List.length fields + beyond) :: rest)
      = Panic (PanicIndexOutOfRange (Z.of_nat (List.length fields + beyond))
                 (List.length fields))) /\
  (forall alias packed fields opaque below rest,
      aggregateElemType (StructType alias packed fields opaque) (Z.neg below :: rest)
      = Panic (PanicIndexOutOfRange (Z.neg below) (List.length fields))) /\
  aggregateElemType nested_aggregate [0] = Ret I32 /\
  aggregateElemType nested_aggregate [1] = Ret (NewArray 4 (NewStruct [I8; I16])) /\
  aggregateElemType nested_aggregate [1; 2; 0] = Ret I8 /\
  aggregateElemType nested_aggregate [1; -7; 0] = Ret I8 /\
  aggregateElemType nested_aggregate [1; 2; 5] = Panic (PanicIndexOutOfRange 5 2) /\
  aggregateElemType nested_aggregate [2] = Panic (PanicIndexOutOfRange 2 2) /\
  aggregateElemType nested_aggregate [-1] = Panic (PanicIndexOutOfRange (-1) 2).
Proof.
  do 5 (split; [reflexivity|]).
  split.
  { intros alias packed before field after opaque rest. cbn [aggregateElemType].
    rewrite (index_slice_in_range _ _ field); [reflexivity | lia |].
    rewrite Nat2Z.id, nth_error_app2, Nat.sub_diag by lia. reflexivity. }
  split.
  { intros alias packed fields opaque beyond rest. cbn [aggregateElemType].
    rewrite index_slice_out_of_range by lia. reflexivity. }
  split.
  { intros alias packed fields opaque below rest. cbn [aggregateElemType].
    rewrite index_slice_out_of_range by lia. reflexivity. }
  repeat split.
Qed.

End Aggregates.

(** ** Expressions, instructions and blocks *)

Section Operations.

Import types ir.

Variable Local : string -> string.

(** C2: [NewSelectExpr] stores its second argument in both operand fields.
    The third argument is dropped: the expression built from [cond], [x] and
    [y] has [x] as its [Y] operand and prints [x] as its third operand; for
    [i1 true], [i32 1] and [i32 2] it prints [select (i1 true, i32 1, i32 1)]. *)
Theorem NewSelectExpr_repeats_x (cond x y : Constant) :
  ExprSelect_Cond (NewSelectExpr cond x y) = Some cond /\
  ExprSelect_X (NewSelectExpr cond x y) = Some x /\
  ExprSelect_Y (NewSelectExpr cond x y) = Some x /\
  Expr_Ident Local (NewSelectExpr cond x y)
  = "select (" ++ fmt_v (Constant_String Local cond) ++ ", "
      ++ fmt_v (Constant_String Local x) ++ ", "
      ++ fmt_v (Constant_String Local x) ++ ")" /\
  Expr_Ident Local (NewSelectExpr (ConstantOther I1 "true")
                      (ConstantOther I32 "1") (ConstantOther I32 "2"))
  = "select (i1 true, i32 1, i32 1)".
Proof. repeat split. Qed.

(** C3: [Simplify] panics with "not yet implemented" on every expression of
    every variant; it never returns a constant. *)
Theorem Simplify_panics (e : Expression) :
  Simplify e = Panic not_yet_implemented.
Proof. now destruct e. Qed.

(** C4: [Type] panics with "not yet implemented" on every icmp and every
    fcmp expression, and so does [String], which calls it. *)
Theorem cmp_Type_panics (ipred : IPred) (fpred : FPred) (x y : Constant) :
  Expr_Type (ExprICmp ipred x y) = Panic not_yet_implemented /\
  Expr_Type (ExprFCmp fpred x y) = Panic not_yet_implemented /\
  Expr_String Local (ExprICmp ipred x y) = Panic not_yet_implemented /\
  Expr_String Local (ExprFCmp fpred x y) = Panic not_yet_implemented.
Proof. repeat split. Qed.

Lemma metadata_suffix_app (mds mds' : list MetadataAttachment) :
  metadata_suffix (mds ++ mds') = metadata_suffix mds ++ metadata_suffix mds'.
Proof.
  induction mds as [|md mds IH]; [reflexivity|].
  cbn [metadata_suffix List.app]. rewrite IH.
  now rewrite !append_assoc.
Qed.

Lemma Inst_Def_metadata (inst : Instruction) :
  Inst_Def Local inst
  = Inst_Def Local (without_metadata inst) ++ metadata_suffix (Inst_Metadata inst).
Proof.
  destruct inst; cbn [Inst_Def without_metadata Inst_Metadata metadata_suffix];
    rewrite !append_empty_r, !append_assoc; reflexivity.
Qed.

Lemma concat_empty_cons (x : string) (xs : list string) :
  String.concat "" (x :: xs) = x ++ String.concat "" xs.
Proof. destruct xs; cbn [String.concat]; [now rewrite append_empty_r | reflexivity]. Qed.

Lemma metadata_suffix_concat (mds : list MetadataAttachment) :
  metadata_suffix mds
  = String.concat "" (map (fun md => ", " ++ MetadataAttachment_String md) mds).
Proof.
  induction mds as [|md mds IH]; [reflexivity|].
  cbn [metadata_suffix map]. now rewrite concat_empty_cons, IH, append_assoc.
Qed.

Lemma indices_suffix_concat (indices : list Z) :
  indices_suffix indices
  = String.concat "" (map (fun index => ", " ++ fmt_d index) indices).
Proof.
  induction indices as [|i indices IH]; [reflexivity|].
  cbn [indices_suffix map]. now rewrite concat_empty_cons, IH, append_assoc.
Qed.

(** C8: instruction definitions follow the grammar of their opcode.  A trunc
    of the [i64] operand [%x] to [i32] prints [trunc i64 %x to i32]; an
    extractvalue of the operand [%s] of type [{ i32, i8 }] at the path [1]
    prints [extractvalue { i32, i8 } %s, 1]; when the operand is itself an
    instruction of type [i64] named [x], its identifier is [enc.Local] of
    that name; the text of every conversion
    and aggregate instruction is its text without attachments followed by
    [, attachment] for each attachment, in the order of the list.
    In general: each of the thirteen conversions prints its own opcode, the
    operand, [to] and the target type; extractvalue prints the aggregate
    operand and then [, index] for every index in order; insertvalue prints
    the aggregate operand, the element operand and then the indices; all of
    them end with the attachments; an operand prints as its type followed by
    its identifier. *)
Theorem Inst_Def_grammar :
  Inst_Def Local (NewTrunc (ValueOther I64 "%x") I32) = "trunc i64 %x to i32" /\
  Inst_Def Local (NewExtractValue (ValueOther (NewStruct [I32; I8]) "%s") [1])
  = "extractvalue { i32, i8 } %s, 1" /\
  (forall v,
      Inst_Def Local (NewTrunc (ValueInst (Inst_SetName (NewZExt v I64) "x")) I32)
      = "trunc i64 " ++ Local "x" ++ " to i32") /\
  (forall inst,
      Inst_Def Local inst
      = Inst_Def Local (without_metadata inst) ++ metadata_suffix (Inst_Metadata inst)) /\
  (forall md mds,
      metadata_suffix (md :: mds)
      = ", " ++ MetadataAttachment_String md ++ metadata_suffix mds) /\
  (forall mds mds',
      metadata_suffix (mds ++ mds') = metadata_suffix mds ++ metadata_suffix mds') /\
  (forall op name from to mds,
      Inst_Def Local (InstConv op name from to mds)
      = match op with
        | Trunc => "trunc"
        | ZExt => "zext"
        | SExt => "sext"
        | FPTrunc => "fptrunc"
        | FPExt => "fpext"
        | FPToUI => "fptoui"
        | FPToSI => "fptosi"
        | UIToFP => "uitofp"
        | SIToFP => "sitofp"
        | PtrToInt => "ptrtoint"
        | IntToPtr => "inttoptr"
        | BitCast => "bitcast"
        | AddrSpaceCast => "addrspacecast"
        end
        ++ " " ++ fmt_v (Value_String Local from) ++ " to " ++ String Local to
        ++ String.concat ""
             (map (fun md => ", " ++ MetadataAttachment_String md) mds)) /\
  (forall name x indices typ mds,
      Inst_Def Local (InstExtractValue name x indices typ mds)
      = "extractvalue " ++ fmt_v (Value_String Local x)
        ++ String.concat "" (map (fun index => ", " ++ fmt_d index) indices)
        ++ String.concat ""
             (map (fun md => ", " ++ MetadataAttachment_String md) mds)) /\
  (forall name x elem indices typ mds,
      Inst_Def Local (InstInsertValue name x elem indices typ mds)
      = "insertvalue " ++ fmt_v (Value_String Local x) ++ ", "
        ++ fmt_v (Value_String Local elem)
        ++ String.concat "" (map (fun index => ", " ++ fmt_d index) indices)
        ++ String.concat ""
             (map (fun md => ", " ++ MetadataAttachment_String md) mds)) /\
  (forall typ ident,
      fmt_v (Value_String Local (ValueOther typ ident))
      = String Local typ ++ " " ++ ident) /\
  Inst_Def Local (InstConv ZExt "r" (ValueOther I8 "%b") I32 [md_dbg; md_tbaa])
  = "zext i8 %b to i32, !dbg !7, !tbaa !2" /\
  Inst_Def Local (InstConv AddrSpaceCast "" (ValueOther I8Ptr "%p")
                    (PointerType "" I8 1) [])
  = "addrspacecast i8* %p to i8 addrspace(1)*" /\
  Inst_Def Local (InstExtractValue "" (ValueOther nested_aggregate "%s") [1; 2; 1]
                    None [md_dbg])
  = "extractvalue { i32, [4 x { i8, i16 }] } %s, 1, 2, 1, !dbg !7" /\
  Inst_Def Local (InstInsertValue "" (ValueOther nested_aggregate "%s")
                    (ValueOther I16 "9") [1; 2; 1] None [md_dbg; md_tbaa])
  = "insertvalue { i32, [4 x { i8, i16 }] } %s, i16 9, 1, 2, 1, !dbg !7, !tbaa !2".
Proof.
  do 3 (split; [reflexivity|]).
  split; [apply Inst_Def_metadata|].
  split; [reflexivity|].
  split; [apply metadata_suffix_app|].
  split.
  { intros op name from to mds. cbn [Inst_Def].
    rewrite metadata_suffix_concat. now destruct op. }
  split.
  { intros name x indices typ mds. cbn [Inst_Def].
    now rewrite metadata_suffix_concat, indices_suffix_concat. }
  split.
  { intros name x elem indices typ mds. cbn [Inst_Def].
    now rewrite metadata_suffix_concat, indices_suffix_concat. }
  repeat split.
Qed.

(** C10: on every basic block, named or not, [Ident] panics with "not yet
    implemented", while [Name] returns the label name, [SetName] returns the
    block with the new name and [Type] returns the label type. *)
Theorem BasicBlock_Ident_panics (Terminator : Type) (block : BasicBlock Terminator)
    (name : string) :
  BasicBlock_Ident block = Panic not_yet_implemented /\
  BasicBlock_Name block = Ret (BasicBlock_LocalName block) /\
  (exists block', BasicBlock_SetName block name = Ret block' /\
                  BasicBlock_Name block' = Ret name) /\
  BasicBlock_Type block = Ret Label /\
  BasicBlock_Ident (@NewBlock Terminator name) = Panic not_yet_implemented.
Proof. repeat split. eexists. split; reflexivity. Qed.

End Operations.

(** ** Type nodes linked by references *)

Section TypeGraphs.

Import graph.

Local Open Scope nat_scope.

Variable Local : string -> string.

(** *** More depth never changes a result *)

Lemma each_String_extends (str str' : ref -> run string) (rs : list ref) :
  extends str str' ->
  forall o, each_String str rs = Some o -> each_String str' rs = Some o.
Proof.
  intros E. induction rs as [|r rs IH]; intros o H; [exact H|].
  cbn [each_String] in *.
  destruct (str r) as [[s|p]|] eqn:Er; try discriminate;
    rewrite (E _ _ Er); cbn [rbind] in *; [|exact H].
  destruct (each_String str rs) as [[ss|p]|] eqn:Es; try discriminate;
    now rewrite (IH _ eq_refl).
Qed.

Lemma fmt_v_ref_extends (h : store) (str str' : ref -> run string) (r : ref) :
  extends str str' ->
  forall o, fmt_v_ref h str r = Some o -> fmt_v_ref h str' r = Some o.
Proof.
  intros E o. unfold fmt_v_ref. destruct (deref h r); [|auto].
  destruct (str r) as [o'|] eqn:Er; [|discriminate]. now rewrite (E _ _ Er).
Qed.

Ltac step_extends lemma E H :=
  match type of H with
  | rbind ?m _ = Some _ =>
      let o := fresh "o" in
      let Em := fresh "Em" in
      destruct m as [o|] eqn:Em; [|discriminate H];
      eapply lemma in Em; [|exact E]; rewrite Em;
      destruct o; cbn [rbind] in H |- *; [|exact H]
  end.

Lemma Def_node_extends (h : store) (str str' : ref -> run string) (n : node) :
  extends str str' ->
  forall o, Def_node h str n = Some o -> Def_node h str' n = Some o.
Proof.
  intros E o H. destruct n; cbn [Def_node] in *; try exact H.
  - step_extends fmt_v_ref_extends E H. step_extends each_String_extends E H.
    exact H.
  - destruct (str ElemType) as [o'|] eqn:Er; [|discriminate H].
    now rewrite (E _ _ Er).
  - step_extends fmt_v_ref_extends E H. exact H.
  - step_extends fmt_v_ref_extends E H. exact H.
  - destruct Opaque; [exact H|]. step_extends each_String_extends E H. exact H.
Qed.

Lemma String_deeper (h : store) (depth : nat) :
  forall depth', (depth <= depth')%nat -> extends (String Local depth h) (String Local depth' h).
Proof.
  induction depth as [|d IH]; intros [|d'] Hle r o H; try discriminate; [lia|].
  cbn [String] in *. destruct (deref h r) as [n|]; [|exact H].
  destruct (types.has_alias (Alias n)); [exact H|].
  eapply Def_node_extends; [|exact H]. apply IH. lia.
Qed.

Lemma all_equal_extends (eq eq' : ref -> ref -> run bool) (ts : list ref) :
  extends2 eq eq' ->
  forall us o, all_equal eq ts us = Some o -> all_equal eq' ts us = Some o.
Proof.
  intros E. induction ts as [|t ts IH]; intros [|u us] o H; try exact H.
  cbn [all_equal] in *.
  destruct (eq t u) as [[b|p]|] eqn:Et; try discriminate;
    rewrite (E _ _ _ Et); cbn [rbind] in *; [|exact H].
  destruct b; [now apply IH | exact H].
Qed.

Lemma Equal_deeper (h : store) (depth : nat) :
  forall depth', (depth <= depth')%nat ->
                 extends2 (Equal Local depth h) (Equal Local depth' h).
Proof.
  induction depth as [|d IH]; intros [|d'] Hle t u o H; try discriminate; [lia|].
  assert (extends2 (Equal Local d h) (Equal Local d' h)) as E by (apply IH; lia).
  assert (extends (String Local d h) (String Local d' h)) as ES
      by (apply String_deeper; lia).
  cbn [Equal] in *. destruct (deref h t) as [[]|]; try exact H.
  - destruct (deref h u) as [[]|]; try exact H.
    destruct (Equal Local d h RetType RetType0) as [[b|p]|] eqn:Er;
      try discriminate; rewrite (E _ _ _ Er); cbn [rbind] in *; [|exact H].
    destruct (negb b); [exact H|].
    destruct (negb (List.length Params =? List.length Params0)%nat); [exact H|].
    destruct (all_equal (Equal Local d h) Params Params0) as [[bs|p]|] eqn:Ea;
      try discriminate; rewrite (all_equal_extends _ _ _ E _ _ Ea);
      cbn [rbind] in *; exact H.
  - destruct (String Local d h t) as [[s|p]|] eqn:Et; try discriminate;
      rewrite (ES _ _ Et); cbn [rbind] in *; [|exact H].
    destruct (String Local d h u) as [[s'|p]|] eqn:Eu; try discriminate;
      rewrite (ES _ _ Eu); cbn [rbind] in *; exact H.
  - destruct (deref h u) as [[]|]; try exact H.
    destruct (negb (Len =? Len0)%Z); [exact H | now apply E].
  - destruct (deref h u) as [[]|]; try exact H.
    destruct (negb (Len =? Len0)%Z); [exact H | now apply E].
  - destruct (deref h u) as [[]|]; try exact H.
    destruct (types.has_alias Alias0 || types.has_alias Alias1); [exact H|].
    destruct (negb (Bool.eqb Packed Packed0)); [exact H|].
    destruct (negb (List.length Fields =? List.length Fields0)%nat); [exact H|].
    now apply (all_equal_extends _ _ _ E).
Qed.

(** A call has at most one result. *)
Lemma Equal_result_unique (h : store) (t u : ref) (d d' : nat) (o o' : outcome bool) :
  Equal Local d h t u = Some o -> Equal Local d' h t u = Some o' -> o = o'.
Proof.
  intros H H'.
  apply (Equal_deeper h d (Nat.max d d') (Nat.le_max_l d d')) in H.
  apply (Equal_deeper h d' (Nat.max d d') (Nat.le_max_r d d')) in H'.
  congruence.
Qed.

(** *** On acyclic stores the methods agree with those of type trees *)

Lemma unfold_deref (h : store) (depth : nat) (r : ref) (t : types.type) :
  unfold depth h r = Some t -> exists n, deref h r = Some n.
Proof.
  destruct depth; [discriminate|]. cbn [unfold].
  destruct (deref h r); [now eexists | discriminate].
Qed.

Lemma unfold_all_length (unf : ref -> option types.type) (rs : list ref) :
  forall ts, unfold_all unf rs = Some ts -> List.length ts = List.length rs.
Proof.
  induction rs as [|r rs IH]; intros ts H; cbn [unfold_all] in H.
  - now inversion H.
  - destruct (unf r); [|discriminate].
    destruct (unfold_all unf rs) as [ts'|]; [|discriminate].
    inversion H; subst. cbn [List.length]. now rewrite (IH _ eq_refl).
Qed.

Lemma each_String_unfold (h : store) (str : ref -> run string)
    (unf : ref -> option types.type) (rs : list ref) :
  (forall r t, unf r = Some t -> str r = Some (Ret (types.String Local t))) ->
  forall ts, unfold_all unf rs = Some ts ->
             each_String str rs = Some (Ret (map (types.String Local) ts)).
Proof.
  intros Hstr. induction rs as [|r rs IH]; intros ts H; cbn [unfold_all] in H.
  - now inversion H.
  - destruct (unf r) as [t|] eqn:Er; [|discriminate].
    destruct (unfold_all unf rs) as [ts'|]; [|discriminate].
    inversion H; subst. cbn [each_String].
    now rewrite (Hstr _ _ Er), (IH _ eq_refl).
Qed.

Ltac unfold_children H :=
  repeat match type of H with
         | context [unfold ?d' ?h' ?c] =>
             let E := fresh "E" in
             destruct (unfold d' h' c) eqn:E; cbn [option_map] in H
         | context [unfold_all ?f ?cs] =>
             let E := fresh "E" in
             destruct (unfold_all f cs) eqn:E; cbn [option_map] in H
         end; try discriminate H.

Lemma unfold_String (h : store) (depth : nat) :
  forall r t, unfold depth h r = Some t ->
              String Local depth h r = Some (Ret (types.String Local t)).
Proof.
  induction depth as [|d IH]; intros r t H; [discriminate|].
  assert (forall c t', unfold d h c = Some t' ->
            fmt_v_ref h (String Local d h) c = Some (Ret (types.String Local t')))
    as Hfmt.
  { intros c t' Hc. unfold fmt_v_ref.
    destruct (unfold_deref _ _ _ _ Hc) as [n Hn]. now rewrite Hn, (IH _ _ Hc). }
  cbn [unfold String] in *. destruct (deref h r) as [n|]; [|discriminate].
  destruct n; cbn [Alias Def_node].
  all: unfold_children H.
  all: inversion H; subst; clear H; unfold types.String at 1, types.String_of;
    cbn [types.Alias]; destruct (types.has_alias _); try reflexivity.
  - rewrite (Hfmt _ _ E), (each_String_unfold h _ _ _ IH _ E0).
    cbn [rbind types.Def]. now rewrite (unfold_all_length _ _ _ E0).
  - now rewrite (IH _ _ E).
  - now rewrite (Hfmt _ _ E).
  - now rewrite (Hfmt _ _ E).
  - destruct Opaque; [reflexivity|].
    now rewrite (each_String_unfold h _ _ _ IH _ E).
Qed.

Lemma all_equal_unfold (eq : ref -> ref -> run bool)
    (unf : ref -> option types.type) (ts : list ref) :
  (forall t u tt ut, unf t = Some tt -> unf u = Some ut ->
                     eq t u = Some (Ret (types.Equal Local tt ut))) ->
  forall us tts uts,
    unfold_all unf ts = Some tts -> unfold_all unf us = Some uts ->
    all_equal eq ts us
    = Some (Ret (types.all_equal (types.Equal Local) tts uts)).
Proof.
  intros Heq. induction ts as [|t ts IH]; intros us tts uts Ht Hu;
    cbn [unfold_all] in Ht.
  - now inversion Ht.
  - destruct (unf t) as [tt|] eqn:Et; [|discriminate].
    destruct (unfold_all unf ts) as [tts'|]; [|discriminate].
    inversion Ht; subst; clear Ht.
    destruct us as [|u us]; cbn [unfold_all] in Hu.
    + now inversion Hu.
    + destruct (unf u) as [ut|] eqn:Eu; [|discriminate].
      destruct (unfold_all unf us) as [uts'|] eqn:Eus; [|discriminate].
      inversion Hu; subst; clear Hu.
      cbn [all_equal types.all_equal]. rewrite (Heq _ _ _ _ Et Eu). cbn [rbind].
      destruct (types.Equal Local tt ut); [|reflexivity].
      now apply IH.
Qed.

(** When the nodes below [t] and [u] form finite trees, [Equal] on the
    store returns what [Equal] on the two trees computes. *)
Lemma unfold_Equal (h : store) (depth : nat) :
  forall t u tt ut,
    unfold depth h t = Some tt -> unfold depth h u = Some ut ->
    Equal Local (S depth) h t u = Some (Ret (types.Equal Local tt ut)).
Proof.
  induction depth as [|d IH]; intros t u tt ut Ht Hu; [discriminate|].
  pose proof (unfold_String h (S d) t tt Ht) as St.
  pose proof (unfold_String h (S d) u ut Hu) as Su.
  cbn [unfold] in Ht, Hu.
  remember (S d) as d1 eqn:Ed1. cbn [Equal].
  destruct (deref h t) as [nt|]; [|discriminate].
  destruct (deref h u) as [nu|]; [|discriminate].
  destruct nt; unfold_children Ht; inversion Ht; subst; clear Ht.
  6: { rewrite St, Su. reflexivity. }
  all: destruct nu; unfold_children Hu; inversion Hu; subst; clear Hu;
    try reflexivity.
  - rewrite (IH _ _ _ _ E E1). cbn [rbind types.Equal].
    destruct (negb (types.Equal Local t0 t1)); [reflexivity|].
    rewrite (unfold_all_length _ _ _ E0), (unfold_all_length _ _ _ E2).
    destruct (negb _); [reflexivity|].
    rewrite (all_equal_unfold _ _ _ (IH) _ _ _ E0 E2). cbn [rbind].
    now destruct (negb _).
  - cbn [types.Equal]. destruct (negb _); [reflexivity|]. now apply IH.
  - cbn [types.Equal]. destruct (negb _); [reflexivity|]. now apply IH.
  - cbn [types.Equal]. destruct (_ || _); [reflexivity|].
    destruct (negb _); [reflexivity|].
    rewrite (unfold_all_length _ _ _ E), (unfold_all_length _ _ _ E0).
    destruct (negb _); [reflexivity|].
    exact (all_equal_unfold _ _ _ IH _ _ _ E E0).
Qed.

(** *** A literal struct that contains a pointer to itself *)

Lemma String_literal_cycle (depth : nat) :
  forall r, (r < 4)%nat -> String Local depth literal_cycle r = None.
Proof.
  induction depth as [|d IH]; intros r Hr; [reflexivity|].
  destruct r as [|[|[|[|r]]]]; try lia; cbn; now rewrite IH by lia.
Qed.

Lemma Equal_literal_cycle_pointers (depth : nat) :
  Equal Local depth literal_cycle 1 3 = None.
Proof.
  destruct depth as [|d]; [reflexivity|].
  cbn [Equal deref literal_cycle nth_error].
  now rewrite String_literal_cycle by lia.
Qed.

Lemma Equal_literal_cycle (depth : nat) :
  Equal Local depth literal_cycle 0 2 = None.
Proof.
  destruct depth as [|d]; [reflexivity|].
  cbn [Equal deref literal_cycle nth_error].
  cbn [types.has_alias String.length Nat.ltb Nat.leb orb Bool.eqb negb List.length
       Nat.eqb all_equal].
  now rewrite Equal_literal_cycle_pointers.
Qed.

(** *** Stores whose cycles go through a named struct or pointer *)

Lemma each_String_returns (str : ref -> run string) (rs : list ref) :
  Forall (fun r => exists s, str r = Some (Ret s)) rs ->
  exists ss, each_String str rs = Some (Ret ss).
Proof.
  induction 1 as [|r rs [s Hs] _ [ss IH]]; [now exists []|].
  exists (s :: ss). cbn [each_String]. now rewrite Hs, IH.
Qed.

Lemma fmt_v_ref_returns (h : store) (str : ref -> run string) (r : ref) :
  (exists s, str r = Some (Ret s)) ->
  exists s, fmt_v_ref h str r = Some (Ret s).
Proof.
  intros [s Hs]. unfold fmt_v_ref. destruct (deref h r); [|now eexists].
  rewrite Hs. now eexists.
Qed.

Lemma Def_node_returns (h : store) (str : ref -> run string) (n : node) :
  Forall (fun r => exists s, str r = Some (Ret s)) (children n) ->
  exists s, Def_node h str n = Some (Ret s).
Proof.
  intros H. destruct n; cbn [Def_node children] in *; try (now eexists).
  - inversion H as [|? ? Hr Hps]; subst.
    destruct (fmt_v_ref_returns h str RetType Hr) as [r Er].
    destruct (each_String_returns str Params Hps) as [ps Eps].
    rewrite Er, Eps. now eexists.
  - inversion H as [|? ? [e He] _]; subst. rewrite He. now eexists.
  - inversion H as [|? ? He _]; subst.
    destruct (fmt_v_ref_returns h str ElemType He) as [e Ee].
    rewrite Ee. now eexists.
  - inversion H as [|? ? He _]; subst.
    destruct (fmt_v_ref_returns h str ElemType He) as [e Ee].
    rewrite Ee. now eexists.
  - destruct Opaque; [now eexists|].
    destruct (each_String_returns str Fields H) as [fs Efs].
    rewrite Efs. now eexists.
Qed.

Lemma all_equal_returns (eq : ref -> ref -> run bool) (ts : list ref) :
  forall us,
    Forall (fun t => Forall (fun u => exists b, eq t u = Some (Ret b)) us) ts ->
    exists b, all_equal eq ts us = Some (Ret b).
Proof.
  induction ts as [|t ts IH]; intros [|u us] H; try (now eexists).
  inversion H as [|? ? Ht Hts]; subst. inversion Ht as [|? ? [b Hb] _]; subst.
  cbn [all_equal]. rewrite Hb. cbn [rbind]. destruct b; [|now eexists].
  apply IH. eapply Forall_impl; [|exact Hts].
  intros t' Ht'. now inversion Ht'.
Qed.

Lemma ranked_from_lookup (stops : node -> bool) (rank : ref -> nat) (ns : list node) :
  forall base r n,
    ranked_from stops rank base ns = true -> nth_error ns r = Some n ->
    ranked_node stops rank (base + r) n = true.
Proof.
  induction ns as [|m ns IH]; intros base r n H Hn; [now destruct r|].
  cbn [ranked_from] in H. apply andb_true_iff in H as [Hm Hns].
  destruct r as [|r]; cbn [nth_error] in Hn.
  - inversion Hn; subst. now rewrite Nat.add_0_r.
  - rewrite Nat.add_succ_r. now apply (IH (S base)).
Qed.

Lemma children_rank (stops : node -> bool) (rank : ref -> nat) (h : store)
    (r : ref) (n : node) :
  ranked stops rank h = true -> deref h r = Some n -> stops n = false ->
  Forall (fun c => rank c < rank r) (children n).
Proof.
  intros Hrk Hn Hs.
  pose proof (ranked_from_lookup stops rank h 0 r n Hrk Hn) as H.
  unfold ranked_node in H. rewrite Hs in H. cbn [orb Nat.add] in H.
  rewrite forallb_forall in H. apply Forall_forall.
  intros c Hc. now apply Nat.ltb_lt, H.
Qed.

Section Ranked.

Variable h : store.
Variables String_rank Equal_rank : ref -> nat.
Hypothesis h_closed : closed h = true.
Hypothesis String_ranked : ranked String_stops String_rank h = true.
Hypothesis Equal_ranked : ranked Equal_stops Equal_rank h = true.

Lemma children_in_store (r : ref) (n : node) :
  deref h r = Some n -> Forall (fun c => c < List.length h) (children n).
Proof.
  intros Hn. apply nth_error_In in Hn.
  unfold closed in h_closed. rewrite forallb_forall in h_closed.
  specialize (h_closed n Hn). rewrite forallb_forall in h_closed.
  apply Forall_forall. intros c Hc. now apply Nat.ltb_lt, h_closed.
Qed.

Lemma in_store (r : ref) :
  r < List.length h -> exists n, deref h r = Some n.
Proof.
  intros H. unfold deref. destruct (nth_error h r) eqn:E; [now eexists|].
  apply nth_error_None in E. lia.
Qed.

Lemma String_returns (depth : nat) :
  forall r, r < List.length h -> String_rank r < depth ->
            exists s, String Local depth h r = Some (Ret s).
Proof.
  induction depth as [|d IH]; intros r Hr Hd; [lia|].
  destruct (in_store r Hr) as [n Hn]. cbn [String]. rewrite Hn.
  destruct (types.has_alias (Alias n)) eqn:Ha; [now eexists|].
  apply Def_node_returns.
  pose proof (children_in_store r n Hn) as Hin.
  pose proof (children_rank _ _ _ r n String_ranked Hn Ha) as Hrk.
  rewrite Forall_forall in *. intros c Hc.
  apply IH; [now apply Hin|]. specialize (Hrk c Hc). lia.
Qed.

Variable bound : nat.
Hypothesis rank_bound : forall r, r < List.length h -> String_rank r < bound.

Lemma Equal_returns (depth : nat) :
  forall t u, t < List.length h -> u < List.length h ->
              bound + Equal_rank t < depth ->
              exists b, Equal Local depth h t u = Some (Ret b).
Proof.
  induction depth as [|d IH]; intros t u Ht Hu Hd; [lia|].
  destruct (in_store t Ht) as [nt Hnt]. destruct (in_store u Hu) as [nu Hnu].
  pose proof (children_in_store t nt Hnt) as Tin.
  pose proof (children_in_store u nu Hnu) as Uin.
  pose proof (rank_bound t Ht) as Bt. pose proof (rank_bound u Hu) as Bu.
  assert (forall t' u', In t' (children nt) -> In u' (children nu) ->
                        Equal_stops nt = false ->
                        exists b, Equal Local d h t' u' = Some (Ret b)) as Rec.
  { intros t' u' Ht' Hu' Hs.
    pose proof (children_rank _ _ _ t nt Equal_ranked Hnt Hs) as Trk.
    rewrite Forall_forall in *.
    apply IH; [now apply Tin | now apply Uin |].
    specialize (Trk t' Ht'). lia. }
  cbn [Equal]. rewrite Hnt, Hnu.
  destruct nt; try (now eexists).
  - destruct nu; try (now eexists). cbn [children] in *.
    destruct (Rec RetType RetType0) as [b Hb]; [now left | now left | reflexivity |].
    rewrite Hb. cbn [rbind]. destruct (negb b); [now eexists|].
    destruct (negb _); [now eexists|].
    destruct (all_equal_returns (Equal Local d h) Params Params0) as [bs Hbs].
    { apply Forall_forall. intros t' Ht'. apply Forall_forall. intros u' Hu'.
      apply Rec; [now right | now right | reflexivity]. }
    rewrite Hbs. cbn [rbind]. destruct (negb bs); now eexists.
  - destruct (String_returns d t Ht) as [ts Hts]; [lia|].
    destruct (String_returns d u Hu) as [us Hus]; [lia|].
    rewrite Hts, Hus. now eexists.
  - destruct nu; try (now eexists). cbn [children] in *.
    destruct (negb _); [now eexists|].
    apply Rec; [now left | now left | reflexivity].
  - destruct nu; try (now eexists). cbn [children] in *.
    destruct (negb _); [now eexists|].
    apply Rec; [now left | now left | reflexivity].
  - destruct nu; try (now eexists). cbn [children] in *.
    destruct (types.has_alias Alias0) eqn:Ha; [now eexists|]. cbn [orb].
    destruct (types.has_alias Alias1); [now eexists|].
    destruct (negb _); [now eexists|].
    destruct (negb _); [now eexists|].
    apply all_equal_returns.
    apply Forall_forall. intros t' Ht'. apply Forall_forall. intros u' Hu'.
    apply Rec; auto.
Qed.

End Ranked.

Lemma rank_below_max (rank : ref -> nat) (h : store) (r : ref) :
  r < List.length h ->
  rank r < S (list_max (map rank (seq 0 (List.length h)))).
Proof.
  intros Hr. apply Nat.lt_succ_r.
  pose proof (proj1 (list_max_le (map rank (seq 0 (List.length h))) _)
                (Nat.le_refl _)) as H.
  rewrite Forall_forall in H. apply H, in_map, in_seq. lia.
Qed.

(** C5 (amended): in a store where no reference is nil, every cycle
    contains a node that carries a non-empty alias, and every cycle contains
    a pointer or an identified struct (each has a rank that decreases along
    the references [String], respectively [Equal], follows), [Equal] between
    any two nodes returns a boolean at some depth, and returns the same
    boolean at every greater depth. *)
Theorem Equal_returns_on_named_cycles
    (String_rank Equal_rank : ref -> nat) (h : store) (t u : ref) :
  closed h = true ->
  ranked String_stops String_rank h = true ->
  ranked Equal_stops Equal_rank h = true ->
  t < List.length h -> u < List.length h ->
  exists depth b,
    forall depth', depth <= depth' -> Equal Local depth' h t u = Some (Ret b).
Proof.
  intros Hc Hs He Ht Hu.
  set (bound := S (list_max (map String_rank (seq 0 (List.length h))))).
  destruct (Equal_returns h String_rank Equal_rank Hc Hs He bound
              (rank_below_max String_rank h)
              (S (bound + Equal_rank t)) t u Ht Hu (Nat.lt_succ_diag_r _)) as [b Hb].
  exists (S (bound + Equal_rank t)), b. intros depth' Hle.
  now apply (Equal_deeper h _ depth' Hle).
Qed.

End TypeGraphs.

(** C5, as stated, fails: on [struct { self* }] built twice without an alias,
    [Equal] between the two structs returns at no depth. *)
Lemma Equal_literal_cycle_counterexample :
  graph.closed graph.literal_cycle = true /\
  ~ (exists depth o,
        graph.Equal Local_plain depth graph.literal_cycle 0%nat 2%nat = Some o).
Proof.
  split; [reflexivity|]. intros (depth & o & H).
  rewrite Equal_literal_cycle in H. discriminate.
Qed.

(** C5 (amended), at [%foo = type { %foo* }] built twice. *)
Lemma Equal_returns_on_named_cycles_witness :
  exists depth b,
    forall depth', (depth <= depth')%nat ->
      graph.Equal Local_plain depth' graph.named_cycle 0%nat 2%nat = Some (Ret b).
Proof.
  apply (Equal_returns_on_named_cycles Local_plain graph.named_cycle_rank
           (fun _ => 0%nat) graph.named_cycle 0%nat 2%nat);
    [reflexivity | reflexivity | reflexivity | simpl; lia | simpl; lia].
Defined.

(** The two copies of [%foo] are equal, and so are the pointers to them. *)
Example Equal_named_cycle :
  graph.Equal Local_plain 1 graph.named_cycle 0%nat 2%nat = Some (Ret true) /\
  graph.Equal Local_plain 3 graph.named_cycle 1%nat 3%nat = Some (Ret true).
Proof. split; reflexivity. Qed.

(** A cycle whose only alias sits on an array: the two structs are equal. *)
Example Equal_array_cycle :
  graph.closed graph.array_cycle = true /\
  graph.ranked graph.String_stops graph.array_cycle_String_rank graph.array_cycle = true /\
  graph.ranked graph.Equal_stops graph.array_cycle_Equal_rank graph.array_cycle = true /\
  graph.String Local_plain 3 graph.array_cycle 2%nat = Some (Ret "{ %row }*") /\
  graph.Equal Local_plain 6 graph.array_cycle 0%nat 3%nat = Some (Ret true).
Proof. repeat split. Qed.

(** C1, as stated, fails: on a struct index outside the field list and on an
    index left over at [i32] the helper panics instead of returning. *)
Lemma aggregateElemType_counterexample :
  Malformed nested_aggregate [1; 2; 5] /\
  ir.aggregateElemType nested_aggregate [1; 2; 5] = Panic (PanicIndexOutOfRange 5 2) /\
  Malformed types.I32 [0] /\
  ir.aggregateElemType types.I32 [0]
  = Panic (PanicError "support for aggregate type *types.IntType not yet implemented").
Proof.
  repeat split.
  - eapply Malformed_below_struct; [lia | reflexivity |].
    apply Malformed_below_array. apply Malformed_field. right. simpl. lia.
  - now apply Malformed_non_aggregate.
Qed.

(** C1 (amended), at the path [1, 2, 5] of
    [Struct{i32, Array(4, Struct{i8, i16})}]. *)
Lemma aggregateElemType_malformed_panics_witness :
  exists p, MalformedWith nested_aggregate [1; 2; 5] p /\
            ir.aggregateElemType nested_aggregate [1; 2; 5] = Panic p /\
            aggregate_panic p = true.
Proof.
  apply (aggregateElemType_malformed_panics nested_aggregate [1; 2; 5]).
  eapply Malformed_below_struct; [lia | reflexivity |].
  apply Malformed_below_array. apply Malformed_field. right. simpl. lia.
Defined.

(** C9, at [Struct{i32, i8*}] compared with itself. *)
Lemma Equal_equivalence_witness :
  types.Equal Local_plain struct_with_pointer struct_with_pointer = true /\
  (types.Equal Local_plain struct_with_pointer struct_with_pointer = true ->
   types.Equal Local_plain struct_with_pointer struct_with_pointer = true) /\
  (types.Equal Local_plain struct_with_pointer struct_with_pointer = true ->
   types.Equal Local_plain struct_with_pointer struct_with_pointer = true ->
   types.Equal Local_plain struct_with_pointer struct_with_pointer = true).
Proof.
  apply (Equal_equivalence Local_plain
           struct_with_pointer struct_with_pointer struct_with_pointer);
    reflexivity.
Defined.

(** C6, as stated, fails on integer types: two [i32] types with the aliases
    [a] and [b] are equal. *)
Lemma Equal_int_aliases_counterexample :
  types.has_alias "a" = true /\ types.has_alias "b" = true /\
  String.eqb "a" "b" = false /\
  types.Equal Local_plain (types.IntType "a" 32) (types.IntType "b" 32) = true.
Proof. repeat split. Qed.

(** C6 (amended), at two structs with the same fields and the aliases [foo]
    and [bar]. *)
Lemma Equal_identified_struct_witness :
  types.Equal Local_plain (types.StructType "foo" false [types.I32] false)
    (types.StructType "bar" false [types.I32] false) = false.
Proof.
  exact (proj1 (Equal_identified_struct Local_plain "foo" "bar" false false
                  [types.I32] [types.I32] false false eq_refl)).
Defined.

(** * Further properties of the code *)

(** ** The [Equal], [String] and [Def] methods on type trees *)

Section MoreTypeTrees.

Import types.

Variable Local : string -> string.

(** X1: [Equal] is reflexive on every type tree, whatever aliases its nodes
    carry. *)
Theorem Equal_reflexive (t : type) : Equal Local t t = true.
Proof. apply Equal_refl. Qed.

(** X2: [PointerType.Equal] does not check that its argument is a pointer.  A
    pointer type named [a] equals every type of another variant that is also
    named [a], while that type does not equal the pointer. *)
Theorem Pointer_Equal_same_name (a : string) (e u : type) (s : Z) :
  has_alias a = true -> IsPointer u = false -> Alias u = a ->
  Equal Local (PointerType a e s) u = true /\
  Equal Local u (PointerType a e s) = false.
Proof.
  intros Ha Pu Au. split.
  - cbn [Equal]. rewrite !String_named by (cbn [Alias]; congruence).
    cbn [Alias]. rewrite Au. apply String.eqb_refl.
  - destruct u; try discriminate Pu; reflexivity.
Qed.

(** X3: a literal pointer type and a literal type of another variant are not
    equal, in either direction, although the pointer side compares printed
    text. *)
Theorem Equal_literal_pointer_other (a : string) (e u : type) (s : Z) :
  has_alias a = false -> has_alias (Alias u) = false -> IsPointer u = false ->
  Equal Local (PointerType a e s) u = false /\
  Equal Local u (PointerType a e s) = false.
Proof.
  intros Ha Hu Pu. split.
  - cbn [Equal]. now apply String_pointer_other.
  - destruct u; try discriminate Pu; reflexivity.
Qed.

(** X4: [StructType.Equal] never reads the opaque flag while [Def] prints
    [opaque] for it, so [Equal] is not preserved by taking pointers: a
    literal struct and its opaque twin are equal, the literal pointers to
    them are not. *)
Theorem Equal_opaque_twin (packed : bool) (fields : list type) (s : Z) :
  Equal Local (StructType "" packed fields false) (StructType "" packed fields true)
  = true /\
  Equal Local (PointerType "" (StructType "" packed fields false) s)
              (PointerType "" (StructType "" packed fields true) s) = false.
Proof.
  split.
  - cbn [Equal has_alias String.length Nat.ltb Nat.leb orb].
    rewrite Bool.eqb_reflx, Nat.eqb_refl. cbn [negb].
    apply all_equal_refl, Forall_forall. intros t _. apply Equal_refl.
  - cbn [Equal]. rewrite !String_literal by reflexivity.
    destruct packed; cbn; reflexivity.
Qed.

(** X5: a named type is printed by name wherever it occurs, so the pointer
    types to two types that carry the same non-empty alias are equal
    whatever the two types are; they are equal even when the two named
    types are not, as for an [i32] and a [double] both named [a]. *)
Theorem Pointer_Equal_alias_collision (a : string) (t u : type) (s : Z) :
  has_alias a = true ->
  String Local (SetAlias t a) = Local a /\
  Def Local (SetAlias t a) = Def Local t /\
  Equal Local (PointerType "" (SetAlias t a) s) (PointerType "" (SetAlias u a) s)
  = true /\
  Equal Local (SetAlias I32 a) (SetAlias Double a) = false.
Proof.
  intros Ha.
  assert (forall x, String Local (SetAlias x a) = Local a) as Hn.
  { intros x. rewrite String_named; destruct x; cbn [SetAlias Alias]; auto. }
  repeat split.
  - apply Hn.
  - destruct t; reflexivity.
  - cbn [Equal]. rewrite !String_literal by reflexivity. cbn [Def].
    fold (String Local (SetAlias t a)). fold (String Local (SetAlias u a)).
    rewrite !Hn. apply String.eqb_refl.
Qed.

Lemma all_equal_Forall2 (ts us : list type) :
  List.length ts = List.length us ->
  (all_equal (Equal Local) ts us = true
   <-> Forall2 (fun t u => Equal Local t u = true) ts us).
Proof.
  revert us. induction ts as [|t ts IH]; intros [|u us] L; try discriminate L.
  - split; [constructor | reflexivity].
  - injection L as L. cbn [all_equal]. split.
    + destruct (Equal Local t u) eqn:E; [|discriminate].
      intros H. constructor; [exact E | now apply IH].
    + intros H. inversion H; subst.
      match goal with E : Equal Local t u = true |- _ => rewrite E end.
      now apply IH.
Qed.

(** X6: two literal struct types are equal exactly when their packed flags
    agree and their fields are equal one by one, with the same number of
    fields; two function types are equal exactly when the return types are
    equal, the parameters are equal one by one and the variadic flags
    agree. *)
Theorem Equal_fieldwise :
  (forall tp up tf uf to uo,
      Equal Local (StructType "" tp tf to) (StructType "" up uf uo) = true
      <-> tp = up /\ Forall2 (fun t u => Equal Local t u = true) tf uf) /\
  (forall ta ua tr ur tps ups tv uv,
      Equal Local (FuncType ta tr tps tv) (FuncType ua ur ups uv) = true
      <-> Equal Local tr ur = true /\
          Forall2 (fun t u => Equal Local t u = true) tps ups /\ tv = uv).
Proof.
  split.
  - intros tp up tf uf to uo.
    cbn [Equal has_alias String.length Nat.ltb Nat.leb orb].
    destruct (Bool.eqb tp up) eqn:Ep; cbn [negb].
    + apply Bool.eqb_prop in Ep. subst.
      destruct (Nat.eqb_spec (List.length tf) (List.length uf)) as [L|L]; cbn [negb].
      * rewrite (all_equal_Forall2 _ _ L). tauto.
      * split; [discriminate|]. intros [_ H]. apply Forall2_length in H. contradiction.
    + split; [discriminate|]. intros [E _]. subst.
      rewrite Bool.eqb_reflx in Ep. discriminate.
  - intros ta ua tr ur tps ups tv uv. cbn [Equal].
    destruct (Equal Local tr ur); cbn [negb]; [|split; [discriminate | intros [H _]; discriminate]].
    destruct (Nat.eqb_spec (List.length tps) (List.length ups)) as [L|L]; cbn [negb].
    + pose proof (all_equal_Forall2 _ _ L) as HF.
      destruct (all_equal (Equal Local) tps ups); cbn [negb].
      * split.
        -- intros H. apply Bool.eqb_prop in H. repeat split; auto. now apply HF.
        -- intros (_ & _ & E). subst. apply Bool.eqb_reflx.
      * split; [discriminate|]. intros (_ & H & _). apply HF in H. discriminate.
    + split; [discriminate|]. intros (_ & H & _). apply Forall2_length in H. contradiction.
Qed.

End MoreTypeTrees.

(** ** The aggregate helper, the instructions and the expressions *)

Section MoreOperations.

Import types ir.

Variable Local : string -> string.

(** X7: resolving a path made of two parts is resolving the first part and
    then the second from the type it reached; a panic in the first part is
    the panic of the whole. *)
Theorem aggregateElemType_app (t : type) (front back : list Z) :
  aggregateElemType t (front ++ back)
  = bind (aggregateElemType t front) (fun t' => aggregateElemType t' back).
Proof.
  revert t. induction front as [|i front IH]; intros t; [reflexivity|].
  destruct t; try reflexivity; cbn [List.app aggregateElemType].
  - apply IH.
  - destruct (index_slice Fields i); cbn [bind]; [apply IH | reflexivity].
Qed.

(** X8: on every base type and path [aggregateElemType] either returns a
    type or the path is malformed for that type (a struct index outside the
    field list, or an index left over at a type that is neither array nor
    struct). *)
Theorem aggregateElemType_returns_or_malformed (t : type) (indices : list Z) :
  returns (aggregateElemType t indices) \/ Malformed t indices.
Proof.
  destruct (aggregateElemType t indices) as [t'|p] eqn:E.
  - left. now exists t'.
  - right. eapply aggregateElemType_panics_malformed, E.
Qed.

(** X9: when [aggregateElemType] panics on the type of the aggregate operand,
    [Type] and [String] of an extractvalue instruction with an empty cache
    panic with the same value, while its [Def] still prints the instruction
    and [Type] of an insertvalue instruction with the same operand and path
    returns the operand's type. *)
Theorem ExtractValue_bad_path (name : string) (x elem : Value) (t : type)
    (indices : list Z) (mds : list MetadataAttachment) (p : panic_value) :
  Value_Type x = Ret t -> aggregateElemType t indices = Panic p ->
  Inst_Type (InstExtractValue name x indices None mds) = Panic p /\
  Inst_String Local (InstExtractValue name x indices None mds) = Panic p /\
  Inst_Def Local (InstExtractValue name x indices None mds)
  = "extractvalue " ++ fmt_v (Value_String Local x) ++ indices_suffix indices
      ++ metadata_suffix mds /\
  Inst_Type (InstInsertValue name x elem indices None mds) = Ret t.
Proof.
  intros Hx Hp. unfold Inst_String. cbn [Inst_Type Inst_Def].
  rewrite Hx. cbn [bind]. rewrite Hp. repeat split.
Qed.

(** X10: caching the type is invisible.  After a call of [Type], whether it
    returned or panicked, the instruction has the same [Type], [String] and
    [Def] as before, the same holds for a value used as operand, and a
    second call leaves the state as the first one did. *)
Theorem Type_cache_transparent (inst : Instruction) :
  Inst_Type (Inst_after_Type inst) = Inst_Type inst /\
  Inst_String Local (Inst_after_Type inst) = Inst_String Local inst /\
  Inst_Def Local (Inst_after_Type inst) = Inst_Def Local inst /\
  Inst_after_Type (Inst_after_Type inst) = Inst_after_Type inst.
Proof.
  revert inst.
  apply (Instruction_mutual_ind
           (fun v => Value_Type (Value_after_Type v) = Value_Type v /\
                     Value_String Local (Value_after_Type v) = Value_String Local v /\
                     Value_after_Type (Value_after_Type v) = Value_after_Type v)
           (fun inst => Inst_Type (Inst_after_Type inst) = Inst_Type inst /\
                        Inst_String Local (Inst_after_Type inst) = Inst_String Local inst /\
                        Inst_Def Local (Inst_after_Type inst) = Inst_Def Local inst /\
                        Inst_after_Type (Inst_after_Type inst) = Inst_after_Type inst)).
  - repeat split.
  - repeat split.
  - intros inst (HT & HS & _ & HA). cbn [Value_after_Type Value_Type Value_String].
    now rewrite HT, HS, HA.
  - repeat split.
  - intros name x (HT & HS & HA) indices typ mds. unfold Inst_String.
    destruct typ as [t|]; [repeat split|].
    cbn [Inst_after_Type Inst_Type].
    destruct (xt <- Value_Type x ;; aggregateElemType xt indices) as [t|p] eqn:E;
      cbn [Inst_Type Inst_Def Inst_Ident Inst_LocalName Inst_after_Type];
      rewrite ?HT, ?HS, ?HA, ?E; repeat split.
  - intros name x (HT & HS & HA) elem _ indices typ mds. unfold Inst_String.
    destruct typ as [t|]; [repeat split|].
    cbn [Inst_after_Type Inst_Type].
    destruct (Value_Type x) as [t|p] eqn:E;
      cbn [Inst_Type Inst_Def Inst_Ident Inst_LocalName Inst_after_Type];
      rewrite ?HT, ?HS, ?HA, ?E; repeat split.
Qed.

(** X11: renaming an instruction changes its name and its identifier and
    nothing else: [Name] returns the new name, [Ident] is [enc.Local] of it,
    [Def] and [Type] are those of the instruction before, and of two
    renamings the last one counts. *)
Theorem SetName_only_renames (inst : Instruction) (name name' : string) :
  Inst_Name (Inst_SetName inst name) = name /\
  Inst_Ident Local (Inst_SetName inst name) = Local name /\
  Inst_Def Local (Inst_SetName inst name) = Inst_Def Local inst /\
  Inst_Type (Inst_SetName inst name) = Inst_Type inst /\
  Inst_SetName (Inst_SetName inst name) name' = Inst_SetName inst name'.
Proof. destruct inst; repeat split. Qed.

Lemma Constant_Type_untyped (c : Constant) :
  if Constant_untyped c then Constant_Type c = Panic not_yet_implemented
  else exists t, Constant_Type c = Ret t.
Proof.
  revert c.
  apply (Constant_mutual_ind
           (fun c => if Constant_untyped c
                     then Constant_Type c = Panic not_yet_implemented
                     else exists t, Constant_Type c = Ret t)
           (fun e => if Expr_untyped e
                     then Expr_Type e = Panic not_yet_implemented
                     else exists t, Expr_Type e = Ret t));
    cbn [Constant_untyped Expr_untyped Constant_Type Expr_Type]; auto.
  - intros t _. now exists t.
  - intros _ _ _ to. now exists to.
Qed.

(** X12: the type of an expression is undetermined exactly when it goes back
    to a comparison: for an icmp, an fcmp, or a select whose first operand's
    type is undetermined, [Type] and [String] panic with "not yet
    implemented"; for every other expression (every conversion, whatever
    its operand, and every other select) [Type] returns a type and [String]
    returns that type followed by [Ident]. *)
Theorem Expr_Type_determined (e : Expression) :
  if Expr_untyped e
  then Expr_Type e = Panic not_yet_implemented /\
       Expr_String Local e = Panic not_yet_implemented
  else exists t, Expr_Type e = Ret t /\
                 Expr_String Local e
                 = Ret (String Local t ++ " " ++ Expr_Ident Local e).
Proof.
  pose proof (Constant_Type_untyped (ConstantExpr e)) as H.
  cbn [Constant_untyped Constant_Type] in H. unfold Expr_String.
  destruct (Expr_untyped e).
  - now rewrite H.
  - destruct H as [t Ht]. exists t. now rewrite Ht.
Qed.

(** X13: [Def] of a conversion instruction and [Ident] of a conversion
    expression never panic on a constant operand: an operand whose type is
    undetermined is printed as the text [fmt] writes for the recovered
    panic, every other operand as its type followed by its identifier. *)
Theorem Def_prints_constant_operand (op : ConvOp) (name : string) (c : Constant)
    (to : type) (mds : list MetadataAttachment) :
  exists operand,
    (if Constant_untyped c
     then operand = fmt_v (Panic not_yet_implemented)
     else Constant_String Local c = Ret operand) /\
    Inst_Def Local (InstConv op name (ValueConstant c) to mds)
    = ConvOp_name op ++ " " ++ operand ++ " to " ++ String Local to
        ++ metadata_suffix mds /\
    Expr_Ident Local (ExprConv op c to)
    = ConvOp_name op ++ " (" ++ operand ++ " to " ++ String Local to ++ ")".
Proof.
  exists (fmt_v (Constant_String Local c)).
  split; [|split; reflexivity].
  pose proof (Constant_Type_untyped c) as H.
  destruct c as [t ident|e]; cbn [Constant_untyped Constant_Type] in *.
  - reflexivity.
  - cbn [Constant_String]. destruct (Expr_untyped e).
    + now rewrite H.
    + destruct H as [t Ht]. now rewrite Ht.
Qed.

End MoreOperations.

(** ** The methods on stores of type nodes *)

Section MoreTypeGraphs.

Import graph.

Local Open Scope nat_scope.

Variable Local : string -> string.

(** X14: on type nodes below which the store is a finite tree without nil
    references (shared nodes allowed), [String] and [Equal] return, and they
    return what the methods compute on the unfolded trees: there the
    text-based pointer comparison and the recursion both terminate. *)
Theorem acyclic_agrees_with_trees (h : store) (depth : nat) (t u : ref)
    (tt ut : types.type) :
  unfold depth h t = Some tt -> unfold depth h u = Some ut ->
  String Local depth h t = Some (Ret (types.String Local tt)) /\
  Equal Local (S depth) h t u = Some (Ret (types.Equal Local tt ut)).
Proof.
  intros Ht Hu. split; [now apply unfold_String | now apply unfold_Equal].
Qed.

(** X15: [Equal] with a nil argument.  A nil receiver panics; a receiver
    that is not a pointer type returns false, its type assertion failing; a
    pointer receiver prints itself and then panics on the nil argument's
    [String]. *)
Theorem Equal_nil_argument (h : store) (depth : nat) (t u : ref) :
  deref h u = None ->
  Equal Local (S depth) h t u
  = match deref h t with
    | None => Some (Panic PanicNilDereference)
    | Some n =>
        if IsPointer n
        then rbind (String Local depth h t)
               (fun _ => Some (Panic PanicNilDereference))
        else ret false
    end.
Proof.
  intros Hu. cbn [Equal]. rewrite Hu.
  destruct (deref h t) as [[]|] eqn:Ht; try reflexivity.
  cbn [IsPointer]. destruct depth as [|d]; [reflexivity|].
  destruct (String Local (S d) h t) as [[s|p]|]; try reflexivity.
  cbn [rbind String]. now rewrite Hu.
Qed.

(** X16: [Def] on a node whose element is nil.  An array and a vector print
    the element with [%v], which writes [<nil>]; a pointer and a struct call
    [String] on the element, respectively the field, and panic. *)
Theorem Def_nil_element (h : store) (depth : nat) (e : ref) :
  deref h e = None ->
  (forall r a len, deref h r = Some (ArrayType a len e) ->
     Def Local depth h r = ret ("[" ++ fmt_d len ++ " x <nil>]")) /\
  (forall r a len, deref h r = Some (VectorType a len e) ->
     Def Local depth h r = ret ("<" ++ fmt_d len ++ " x <nil>>")) /\
  (forall r a s, deref h r = Some (PointerType a e s) ->
     Def Local (S depth) h r = Some (Panic PanicNilDereference)) /\
  (forall r a packed rest, deref h r = Some (StructType a packed (e :: rest) false) ->
     Def Local (S depth) h r = Some (Panic PanicNilDereference)).
Proof.
  intros He. repeat split; intros; unfold Def;
    match goal with H : deref h _ = Some _ |- _ => rewrite H end;
    cbn [Def_node each_String String]; unfold fmt_v_ref;
    rewrite He; reflexivity.
Qed.

Lemma literal_self_pointer_String (h : store) (s p : ref) (packed : bool)
    (rest : list ref) (addrspace : Z) :
  deref h s = Some (StructType "" packed (p :: rest) false) ->
  deref h p = Some (PointerType "" s addrspace) ->
  forall depth, String Local depth h s = None /\ String Local depth h p = None.
Proof.
  intros Hs Hp. induction depth as [|d [IHs IHp]]; [now split|].
  cbn [String]. rewrite Hs, Hp.
  cbn [Alias types.has_alias String.length Nat.ltb Nat.leb Def_node each_String].
  now rewrite IHs, IHp.
Qed.

(** X17: a literal struct whose first field is a literal pointer back to the
    struct cannot be printed or compared, whatever else the store holds:
    [String] of the struct and of the pointer, [Equal] with the pointer as
    receiver, and [Equal] between the struct and any literal struct of the
    same layout whose first field is a pointer, return at no depth. *)
Theorem literal_self_pointer_diverges (h : store) (s p : ref) (packed : bool)
    (rest : list ref) (addrspace : Z) :
  deref h s = Some (StructType "" packed (p :: rest) false) ->
  deref h p = Some (PointerType "" s addrspace) ->
  forall depth,
    String Local depth h s = None /\
    String Local depth h p = None /\
    (forall u, Equal Local depth h p u = None) /\
    (forall u p' rest' o,
        deref h u = Some (StructType "" packed (p' :: rest') o) ->
        List.length rest' = List.length rest ->
        Equal Local depth h s u = None).
Proof.
  intros Hs Hp.
  assert (forall depth u, Equal Local depth h p u = None) as HE.
  { intros [|d] u; [reflexivity|]. cbn [Equal]. rewrite Hp.
    now rewrite (proj2 (literal_self_pointer_String h s p packed rest addrspace
                          Hs Hp d)). }
  intros depth.
  destruct (literal_self_pointer_String h s p packed rest addrspace Hs Hp depth)
    as [H1 H2].
  repeat split; auto.
  intros u p' rest' o Hu L. destruct depth as [|d]; [reflexivity|].
  cbn [Equal]. rewrite Hs, Hu.
  cbn [types.has_alias String.length Nat.ltb Nat.leb orb List.length].
  rewrite Bool.eqb_reflx, L, Nat.eqb_refl. cbn [negb all_equal].
  now rewrite HE.
Qed.

End MoreTypeGraphs.

(** ** Printed text and equality *)

Section TextAndEquality.

Import types.

Variable Local : string -> string.

Lemma length_append (a b : string) :
  String.length (a ++ b) = (String.length a + String.length b)%nat.
Proof. induction a as [|c a IH]; simpl; [reflexivity | now rewrite IH]. Qed.

Lemma append_cancel_r (a b x : string) : a ++ x = b ++ x -> a = b.
Proof.
  revert b. induction a as [|c a IH]; intros [|d b] H; simpl in H.
  - reflexivity.
  - apply (f_equal String.length) in H. simpl in H. rewrite length_append in H. lia.
  - apply (f_equal String.length) in H. simpl in H. rewrite length_append in H. lia.
  - inversion H; subst. f_equal. now apply IH.
Qed.

Lemma to_int_not_nil (z : Z) :
  Z.to_int z <> Decimal.Pos Decimal.Nil /\ Z.to_int z <> Decimal.Neg Decimal.Nil.
Proof.
  pose proof (DecimalZ.to_of (Z.to_int z)) as H. rewrite DecimalZ.of_to in H.
  split; intros E; rewrite E in H; discriminate.
Qed.

(** [%d] prints different integers differently. *)
Lemma fmt_d_inj (a b : Z) : fmt_d a = fmt_d b -> a = b.
Proof.
  unfold fmt_d. intros H. apply DecimalZ.to_int_inj.
  destruct (to_int_not_nil a) as [Ha1 Ha2]. destruct (to_int_not_nil b) as [Hb1 Hb2].
  pose proof (NilZero.isi _ Ha1 Ha2) as Ia. pose proof (NilZero.isi _ Hb1 Hb2) as Ib.
  rewrite H in Ia. congruence.
Qed.

Lemma fmt_d_eqb (a b : Z) (x : string) :
  String.eqb (fmt_d a ++ x) (fmt_d b ++ x) = (a =? b).
Proof.
  destruct (Z.eqb_spec a b) as [E|E].
  - subst. apply String.eqb_refl.
  - apply String.eqb_neq. intros H. apply append_cancel_r, fmt_d_inj in H.
    contradiction.
Qed.

(** X18: for literal element types that hold no other type (void, integer,
    floating-point, MMX, label, token, metadata) the comparison of printed
    text agrees with [Equal]: the literal pointer types to [t] and to [u] in
    one address space are equal exactly when [t] and [u] are. *)
Theorem Pointer_Equal_leaf (t u : type) (s : Z) :
  has_alias (Alias t) = false -> has_alias (Alias u) = false ->
  IsLeaf t = true -> IsLeaf u = true ->
  Equal Local (PointerType "" t s) (PointerType "" u s) = Equal Local t u.
Proof.
  intros Ht Hu Lt Lu. cbn [Equal]. rewrite !String_literal by reflexivity.
  cbn [Def]. fold (String Local t). fold (String Local u).
  rewrite !String_literal by assumption.
  destruct t; try discriminate Lt; destruct u; try discriminate Lu;
    cbn [Def Equal];
    try (destruct Kind); try (destruct Kind0);
    try (apply String.eqb_refl); try (cbn; reflexivity).
  cbn [append]. unfold String.eqb at 1. rewrite Ascii.eqb_refl.
  fold String.eqb. apply fmt_d_eqb.
Qed.

End TextAndEquality.

(** ** Printing cyclic types, and nested extraction *)

Section MoreTermination.

Import graph.

Local Open Scope nat_scope.

Variable Local : string -> string.

(** X19: in a store where no reference is nil and every cycle contains a
    node that carries a non-empty alias, [String] of every node returns a
    text at some depth and the same text at every greater depth; for a node
    that carries an alias the text is [enc.Local] of the alias. *)
Theorem String_returns_on_named_cycles (rank : ref -> nat) (h : store) (r : ref) :
  closed h = true -> ranked String_stops rank h = true -> r < List.length h ->
  exists depth s,
    (forall depth', depth <= depth' -> String Local depth' h r = Some (Ret s)) /\
    (forall n, deref h r = Some n -> types.has_alias (Alias n) = true ->
               s = Local (Alias n)).
Proof.
  intros Hc Hr Hlt.
  destruct (String_returns Local h rank Hc Hr (S (rank r)) r Hlt
              (Nat.lt_succ_diag_r _)) as [s Hs].
  exists (S (rank r)), s. split.
  - intros depth' Hle. now apply (String_deeper Local h _ depth' Hle).
  - intros n Hn Ha. cbn [String] in Hs. rewrite Hn, Ha in Hs.
    unfold ret in Hs. congruence.
Qed.

End MoreTermination.

Section MoreExtraction.

Import types ir.

Lemma bind_assoc {A B C : Type} (o : outcome A) (f : A -> outcome B)
    (g : B -> outcome C) :
  bind (bind o f) g = bind o (fun a => bind (f a) g).
Proof. now destruct o. Qed.

(** X20: extractions compose.  With empty caches, extracting at the path
    [back] from the result of extracting at the path [front] has the type
    of a single extraction at [front ++ back], and panics with the same
    value when that one does. *)
Theorem ExtractValue_nested (name name' : string) (x : Value)
    (front back : list Z) (mds mds' : list MetadataAttachment) :
  Inst_Type (InstExtractValue name'
               (ValueInst (InstExtractValue name x front None mds)) back None mds')
  = Inst_Type (InstExtractValue name' x (front ++ back) None mds').
Proof.
  cbn [Inst_Type Value_Type]. rewrite bind_assoc.
  destruct (Value_Type x) as [t|p]; cbn [bind]; [|reflexivity].
  symmetry. apply aggregateElemType_app.
Qed.

End MoreExtraction.

(** ** Instances *)

(** X2, at the pointer type and the struct type both named [a]. *)
Lemma Pointer_Equal_same_name_witness :
  types.Equal Local_plain (types.PointerType "a" types.I8 0)
    (types.StructType "a" false [] false) = true /\
  types.Equal Local_plain (types.StructType "a" false [] false)
    (types.PointerType "a" types.I8 0) = false.
Proof.
  apply (Pointer_Equal_same_name Local_plain "a" types.I8
           (types.StructType "a" false [] false) 0); reflexivity.
Defined.

(** X3, at [i8*] and [i32]. *)
Lemma Equal_literal_pointer_other_witness :
  types.Equal Local_plain types.I8Ptr types.I32 = false /\
  types.Equal Local_plain types.I32 types.I8Ptr = false.
Proof.
  apply (Equal_literal_pointer_other Local_plain "" types.I8 types.I32 0);
    reflexivity.
Defined.

(** X5, at an [i32] and a [double] both named [a]. *)
Lemma Pointer_Equal_alias_collision_witness :
  types.Equal Local_plain
    (types.PointerType "" (types.SetAlias types.I32 "a") 0)
    (types.PointerType "" (types.SetAlias types.Double "a") 0) = true.
Proof.
  exact (proj1 (proj2 (proj2 (Pointer_Equal_alias_collision Local_plain "a"
                                types.I32 types.Double 0 eq_refl)))).
Defined.

(** X9, at an [i32] operand with the path [0]. *)
Lemma ExtractValue_bad_path_witness :
  ir.Inst_Type (ir.InstExtractValue "" (ir.ValueOther types.I32 "%v") [0] None [])
  = Panic (PanicError "support for aggregate type *types.IntType not yet implemented") /\
  ir.Inst_Def Local_plain
    (ir.InstExtractValue "" (ir.ValueOther types.I32 "%v") [0] None [])
  = "extractvalue i32 %v, 0".
Proof.
  pose proof (ExtractValue_bad_path Local_plain "" (ir.ValueOther types.I32 "%v")
                (ir.ValueOther types.I32 "%v") types.I32 [0] []
                (PanicError "support for aggregate type *types.IntType not yet implemented")
                eq_refl eq_refl) as (H1 & _ & H3 & _).
  split; [exact H1 | exact H3].
Defined.

(** X14, at the struct of [shared_store] compared with itself. *)
Lemma acyclic_agrees_with_trees_witness :
  graph.String Local_plain 3 graph.shared_store 2%nat = Some (Ret "{ i32*, i32* }") /\
  graph.Equal Local_plain 4 graph.shared_store 2%nat 2%nat = Some (Ret true).
Proof.
  apply (acyclic_agrees_with_trees Local_plain graph.shared_store 3 2%nat 2%nat
           (types.NewStruct [types.I32Ptr; types.I32Ptr])
           (types.NewStruct [types.I32Ptr; types.I32Ptr])); reflexivity.
Defined.

(** X15, at the array of [nil_store] compared with a nil reference. *)
Lemma Equal_nil_argument_witness :
  graph.Equal Local_plain 1 graph.nil_store 0%nat 7%nat = Some (Ret false).
Proof.
  apply (Equal_nil_argument Local_plain graph.nil_store 0 0%nat 7%nat). reflexivity.
Defined.

(** X16, at the nodes of [nil_store]. *)
Lemma Def_nil_element_witness :
  graph.Def Local_plain 0 graph.nil_store 0%nat = Some (Ret "[4 x <nil>]") /\
  graph.Def Local_plain 1 graph.nil_store 1%nat = Some (Panic PanicNilDereference) /\
  graph.Def Local_plain 1 graph.nil_store 2%nat = Some (Panic PanicNilDereference).
Proof.
  pose proof (Def_nil_element Local_plain graph.nil_store 0 7%nat eq_refl)
    as (HA & _ & HP & HS).
  split; [exact (HA 0%nat "" 4 eq_refl) | split].
  - exact (HP 1%nat "" 0 eq_refl).
  - exact (HS 2%nat "" false [] eq_refl).
Defined.

(** X17, at [struct { self* }]. *)
Lemma literal_self_pointer_diverges_witness :
  ~ (exists depth o,
        graph.String Local_plain depth graph.literal_cycle 0%nat = Some o).
Proof.
  intros (depth & o & H).
  rewrite (proj1 (literal_self_pointer_diverges Local_plain graph.literal_cycle
                    0%nat 1%nat false [] 0 eq_refl eq_refl depth)) in H.
  discriminate H.
Defined.

(** X18, at [i32*] and [i64*]. *)
Lemma Pointer_Equal_leaf_witness :
  types.Equal Local_plain types.I32Ptr (types.PointerType "" types.I64 0) = false.
Proof.
  exact (Pointer_Equal_leaf Local_plain types.I32 types.I64 0
           eq_refl eq_refl eq_refl eq_refl).
Defined.

(** X19, at the pointer to [%foo] in [named_cycle]. *)
Lemma String_returns_on_named_cycles_witness :
  exists depth s,
    (forall depth', (depth <= depth')%nat ->
       graph.String Local_plain depth' graph.named_cycle 1%nat = Some (Ret s)) /\
    (forall n, graph.deref graph.named_cycle 1%nat = Some n ->
               types.has_alias (graph.Alias n) = true ->
               s = Local_plain (graph.Alias n)).
Proof.
  apply (String_returns_on_named_cycles Local_plain graph.named_cycle_rank
           graph.named_cycle 1%nat); [reflexivity | reflexivity | simpl; lia].
Defined.
